(** * kleeborp web-app: the shared WebSocket listener registry

    A shallow embedding of [web-app/app/composables/useAppWebSocket.ts]
    and of the header component that subscribes to it, together with a
    model of the module manager's [startAll] that the specification
    describes.

    The composable keeps four module-level JavaScript [Set]s of handler
    functions, one per event kind.  Its four subscription methods
    [add] a function to one of the sets and return a closure that
    [delete]s it again; the four callbacks handed to [useWebSocket]
    walk one set with [Set.prototype.forEach] and call every function.

    A JavaScript [Set] is ordered by insertion and [forEach] is a live
    walk: the callback may add to and delete from the set that is being
    walked.  The embedding therefore follows the ECMAScript description
    of [[SetData]]: a list of slots in which a deleted element leaves an
    [empty] slot behind and a new element is appended at the end. *)

From Stdlib Require Import String List Arith Bool Lia.
Import ListNotations.

Set Implicit Arguments.

(** The identity of a JavaScript function object.  Two handlers are the
    same element of a [Set] exactly when they are the same object. *)
Definition Fn := nat.

(** ** JavaScript [Set] *)

Module JSSet.

(** [[SetData]]: [None] is the [empty] marker left by [delete]. *)
Definition SetData := list (option Fn).

(** [new Set()] *)
Definition empty : SetData := [].

(** [Set.prototype.has] *)
Fixpoint has (fn : Fn) (s : SetData) : bool :=
  match s with
  | [] => false
  | Some e :: s' => if Nat.eqb e fn then true else has fn s'
  | None :: s' => has fn s'
  end.

(** [Set.prototype.add]: an element already present keeps its slot,
    a new one is appended. *)
Definition add (fn : Fn) (s : SetData) : SetData :=
  if has fn s then s else s ++ [Some fn].

(** [Set.prototype.delete]: the slot of the element becomes [empty];
    the result says whether the element was present. *)
Fixpoint delete (fn : Fn) (s : SetData) : SetData * bool :=
  match s with
  | [] => ([], false)
  | Some e :: s' =>
      if Nat.eqb e fn then (None :: s', true)
      else let '(d, found) := delete fn s' in (Some e :: d, found)
  | None :: s' =>
      let '(d, found) := delete fn s' in (None :: d, found)
  end.

(** The elements of the set in insertion order: what iteration, [size]
    and [has] can observe. *)
Fixpoint elements (s : SetData) : list Fn :=
  match s with
  | [] => []
  | Some e :: s' => e :: elements s'
  | None :: s' => elements s'
  end.

End JSSet.

(** ** The listener registry *)

(** The four keys of [WSHandlers]. *)
Inductive WSKind := Connected | Disconnected | Error | Message.

Definition WSKind_eqb (a b : WSKind) : bool :=
  match a, b with
  | Connected, Connected | Disconnected, Disconnected
  | Error, Error | Message, Message => true
  | _, _ => false
  end.

(** The module-level constant [listeners]. *)
Record Listeners := mkListeners {
  connected : JSSet.SetData;
  disconnected : JSSet.SetData;
  error : JSSet.SetData;
  message : JSSet.SetData
}.

(** [listeners] as the module initialises it: four empty sets. *)
Definition listeners0 : Listeners :=
  mkListeners JSSet.empty JSSet.empty JSSet.empty JSSet.empty.

(** [listeners[k]] *)
Definition get (k : WSKind) (l : Listeners) : JSSet.SetData :=
  match k with
  | Connected => connected l
  | Disconnected => disconnected l
  | Error => error l
  | Message => message l
  end.

(** The registry with the set under key [k] replaced by [s] (the sets are
    mutated in place; the object itself is never reassigned). *)
Definition set (k : WSKind) (s : JSSet.SetData) (l : Listeners) : Listeners :=
  match k with
  | Connected => mkListeners s (disconnected l) (error l) (message l)
  | Disconnected => mkListeners (connected l) s (error l) (message l)
  | Error => mkListeners (connected l) (disconnected l) s (message l)
  | Message => mkListeners (connected l) (disconnected l) (error l) s
  end.

(** The closure [() => listeners.k.delete(fn)] returned by a subscription
    method: it captures the key and the function. *)
Record Unlisten := mkUnlisten { un_kind : WSKind; un_fn : Fn }.

(** Calling an unsubscribe closure; it returns what [delete] returns. *)
Definition call_unlisten (u : Unlisten) (l : Listeners) : Listeners * bool :=
  let '(s, found) := JSSet.delete (un_fn u) (get (un_kind u) l) in
  (set (un_kind u) s l, found).

(** The four subscription methods of the object [useAppWebSocket] returns. *)
Definition onConnected (fn : Fn) (l : Listeners) : Listeners * Unlisten :=
  (set Connected (JSSet.add fn (connected l)) l, mkUnlisten Connected fn).

Definition onDisconnected (fn : Fn) (l : Listeners) : Listeners * Unlisten :=
  (set Disconnected (JSSet.add fn (disconnected l)) l, mkUnlisten Disconnected fn).

Definition onError (fn : Fn) (l : Listeners) : Listeners * Unlisten :=
  (set Error (JSSet.add fn (error l)) l, mkUnlisten Error fn).

Definition onMessage (fn : Fn) (l : Listeners) : Listeners * Unlisten :=
  (set Message (JSSet.add fn (message l)) l, mkUnlisten Message fn).

(** The subscription method for key [k]. *)
Definition subscribe (k : WSKind) : Fn -> Listeners -> Listeners * Unlisten :=
  match k with
  | Connected => onConnected
  | Disconnected => onDisconnected
  | Error => onError
  | Message => onMessage
  end.

(** ** Handlers *)

(** An event delivered by the socket: its kind and the identity of the
    event object ([CloseEvent], [Event], [MessageEvent]; for [Connected]
    the occurrence itself). *)
Record WSEvent := mkEvent { ev_kind : WSKind; ev_id : nat }.

Definition WSEvent_eqb (a b : WSEvent) : bool :=
  WSKind_eqb (ev_kind a) (ev_kind b) && Nat.eqb (ev_id a) (ev_id b).

(** What a handler can do to the registry while it runs: subscribe a
    function, call an unsubscribe closure and branch on its result,
    return, or throw.  The registry itself is private to the module, so
    these are the only ways in. *)
Inductive Prog :=
| Return : Prog
| Throw : Prog
| Subscribe : WSKind -> Fn -> Prog -> Prog
| Unsubscribe : WSKind -> Fn -> (bool -> Prog) -> Prog.

(** The body of every function, for every event it may be called with. *)
Definition Handlers := Fn -> WSEvent -> Prog.

(** What happened, in order. *)
Inductive Item :=
| Invoked : Fn -> WSEvent -> Item
| CalledAdd : WSKind -> Fn -> Item
| CalledDelete : WSKind -> Fn -> Item.

Definition Trace := list Item.

(** Running the body of one handler.  The boolean says whether it threw. *)
Fixpoint run_prog (p : Prog) (l : Listeners) : bool * Listeners * Trace :=
  match p with
  | Return => (false, l, [])
  | Throw => (true, l, [])
  | Subscribe k fn next =>
      let '(threw, l', t) := run_prog next (fst (subscribe k fn l)) in
      (threw, l', CalledAdd k fn :: t)
  | Unsubscribe k fn next =>
      let '(l1, found) := call_unlisten (mkUnlisten k fn) l in
      let '(threw, l', t) := run_prog (next found) l1 in
      (threw, l', CalledDelete k fn :: t)
  end.

(** How a walk or a run ended.  [Diverged] stands for a walk that is still
    running when the step budget is used up. *)
Inductive Outcome :=
| Returned : Outcome
| Threw : Fn -> Outcome
| Diverged : Outcome.

(** [listeners.k.forEach(fn => fn(ws, ev))], from slot [index] on.

    ECMAScript: repeat while [index < numEntries]; take [entries[index]],
    increment [index]; if the slot is not [empty], call the callback and
    read [numEntries] again.  An exception of the callback leaves the
    loop at once.  One unit of [fuel] is one turn of that loop. *)
Fixpoint forEach (body : Handlers) (fuel : nat) (k : WSKind) (ev : WSEvent)
    (index : nat) (l : Listeners) : Outcome * Listeners * Trace :=
  match fuel with
  | 0 => (Diverged, l, [])
  | S fuel' =>
      match nth_error (get k l) index with
      | None => (Returned, l, [])
      | Some None => forEach body fuel' k ev (S index) l
      | Some (Some fn) =>
          let '(threw, l1, t1) := run_prog (body fn ev) l in
          if threw then (Threw fn, l1, Invoked fn ev :: t1)
          else
            let '(o, l2, t2) := forEach body fuel' k ev (S index) l1 in
            (o, l2, Invoked fn ev :: t1 ++ t2)
      end
  end.

(** The four callbacks handed to [useWebSocket]. *)
Definition cbConnected body fuel ev l := forEach body fuel Connected ev 0 l.
Definition cbDisconnected body fuel ev l := forEach body fuel Disconnected ev 0 l.
Definition cbError body fuel ev l := forEach body fuel Error ev 0 l.
Definition cbMessage body fuel ev l := forEach body fuel Message ev 0 l.

(** The socket fires the callback that belongs to the kind of the event. *)
Definition dispatch (body : Handlers) (fuel : nat) (ev : WSEvent)
    (l : Listeners) : Outcome * Listeners * Trace :=
  match ev_kind ev with
  | Connected => cbConnected body fuel ev l
  | Disconnected => cbDisconnected body fuel ev l
  | Error => cbError body fuel ev l
  | Message => cbMessage body fuel ev l
  end.

(** The socket delivers events one after the other; each callback runs to
    completion before the next event is taken.  An exception that leaves a
    callback ends that delivery only: it is reported by the host and the
    next event is delivered as usual.  A callback that never returns
    blocks everything after it.  The result lists how each delivery that
    was begun ended. *)
Fixpoint run (body : Handlers) (fuel : nat) (evs : list WSEvent)
    (l : Listeners) : list Outcome * Listeners * Trace :=
  match evs with
  | [] => ([], l, [])
  | ev :: evs' =>
      let '(o, l1, t1) := dispatch body fuel ev l in
      match o with
      | Diverged => ([Diverged], l1, t1)
      | _ =>
          let '(os, l2, t2) := run body fuel evs' l1 in
          (o :: os, l2, t1 ++ t2)
      end
  end.

(** The functions called, in order. *)
Fixpoint invoked (t : Trace) : list (Fn * WSEvent) :=
  match t with
  | [] => []
  | Invoked fn ev :: t' => (fn, ev) :: invoked t'
  | _ :: t' => invoked t'
  end.

(** How often [fn] was called. *)
Fixpoint calls_any (fn : Fn) (t : Trace) : nat :=
  match t with
  | [] => 0
  | Invoked fn' _ :: t' => (if Nat.eqb fn' fn then 1 else 0) + calls_any fn t'
  | _ :: t' => calls_any fn t'
  end.

(** Whether a body leaves the set under key [k] alone and returns
    normally, whatever its unsubscribe calls report. *)
Fixpoint quiet (k : WSKind) (p : Prog) : bool :=
  match p with
  | Return => true
  | Throw => false
  | Subscribe k' _ next => negb (WSKind_eqb k' k) && quiet k next
  | Unsubscribe k' _ next =>
      negb (WSKind_eqb k' k) && quiet k (next true) && quiet k (next false)
  end.

(** Whether a body never subscribes under key [k]. *)
Fixpoint adds_nothing (k : WSKind) (p : Prog) : bool :=
  match p with
  | Return | Throw => true
  | Subscribe k' _ next => negb (WSKind_eqb k' k) && adds_nothing k next
  | Unsubscribe _ _ next => adds_nothing k (next true) && adds_nothing k (next false)
  end.

(** A set holds no function twice. *)
Definition wf_set (s : JSSet.SetData) : Prop := NoDup (JSSet.elements s).

Definition wf (l : Listeners) : Prop := forall k, wf_set (get k l).

(** [x] and [y] both occur in [l], some occurrence of [x] before one of [y]. *)
Definition before {A : Type} (x y : A) (l : list A) : Prop :=
  exists l1 l2 l3, l = l1 ++ x :: l2 ++ y :: l3.

(** ** The composable *)

(** What [useWebSocket] returns; [sock_conn] tells the connections apart. *)
Record Socket := mkSocket {
  sock_conn : nat;
  sock_url : string;
  sock_autoReconnect : bool
}.

(** The state of the module [useAppWebSocket.ts]: the variable [socket],
    the constant [listeners], and how many connections [useWebSocket] has
    been asked for so far. *)
Record ModuleState := mkModule {
  socket : option Socket;
  listeners : Listeners;
  opened : nat
}.

(** The module as loaded: [socket = null], four empty sets. *)
Definition module0 : ModuleState := mkModule None listeners0 0.

(** [useWebSocket('ws://localhost:8000', { autoReconnect: true, ... })]:
    every call opens a connection of its own. *)
Definition useWebSocket (url : string) (autoReconnect : bool) (n : nat) : Socket * nat :=
  (mkSocket n url autoReconnect, S n).

(** A method of the returned object, acting on the module's registry. *)
Definition Method := Fn -> ModuleState -> ModuleState * Unlisten.

Definition on_module (f : Fn -> Listeners -> Listeners * Unlisten) : Method :=
  fun fn m =>
    let '(l, u) := f fn (listeners m) in
    (mkModule (socket m) l (opened m), u).

(** The object [useAppWebSocket] returns: the members of [socket] and the
    four subscription methods. *)
Record Api := mkApi {
  api_socket : Socket;
  api_onConnected : Method;
  api_onDisconnected : Method;
  api_onError : Method;
  api_onMessage : Method
}.

Definition api_of (s : Socket) : Api :=
  mkApi s (on_module onConnected) (on_module onDisconnected)
        (on_module onError) (on_module onMessage).

Definition useAppWebSocket (m : ModuleState) : ModuleState * Api :=
  match socket m with
  | Some s => (m, api_of s)
  | None =>
      let '(s, n) := useWebSocket "ws://localhost:8000" true (opened m) in
      (mkModule (Some s) (listeners m) n, api_of s)
  end.

(** The method of [a] for key [k]. *)
Definition api_on (a : Api) (k : WSKind) : Method :=
  match k with
  | Connected => api_onConnected a
  | Disconnected => api_onDisconnected a
  | Error => api_onError a
  | Message => api_onMessage a
  end.

(** What the application does with the composable: call it, subscribe
    through the object the [i]-th call returned, call an unsubscribe
    closure, or receive an event from the socket (there are none before
    the socket is constructed). *)
Inductive Action :=
| Use : Action
| SubVia : nat -> WSKind -> Fn -> Action
| Unsub : Unlisten -> Action
| Fire : WSEvent -> Action.

(** The module together with the objects handed out so far. *)
Definition App := (ModuleState * list Api)%type.

Definition step (body : Handlers) (fuel : nat) (a : Action) (st : App) : App :=
  let '(m, apis) := st in
  match a with
  | Use => let '(m', api) := useAppWebSocket m in (m', apis ++ [api])
  | SubVia i k fn =>
      match nth_error apis i with
      | Some api => (fst (api_on api k fn m), apis)
      | None => st
      end
  | Unsub u =>
      (mkModule (socket m) (fst (call_unlisten u (listeners m))) (opened m), apis)
  | Fire ev =>
      match socket m with
      | Some _ =>
          let '(_, l, _) := dispatch body fuel ev (listeners m) in
          (mkModule (socket m) l (opened m), apis)
      | None => st
      end
  end.

Definition exec (body : Handlers) (fuel : nat) (acts : list Action) (st : App) : App :=
  fold_left (fun st a => step body fuel a st) acts st.

(** What holds of the module and of the objects handed out, at any time:
    either nothing was constructed and nothing handed out, or one socket
    was constructed and every object handed out is built on it. *)
Definition singleton (st : App) : Prop :=
  let '(m, apis) := st in
  match socket m with
  | None => opened m = 0 /\ apis = []
  | Some s => opened m = 1 /\ sock_conn s = 0 /\ apis <> [] /\
              Forall (fun a => a = api_of s) apis
  end.

(** ** The header component *)

Module Header.

(** One mounted instance: the two arrow functions its setup created (both
    only assign [isConnected.value]) and the two closures it keeps for
    [onUnmounted]. *)
Record Instance := mkInstance {
  fnConnected : Fn;
  fnDisconnected : Fn;
  unlistenOnConnected : Unlisten;
  unlistenOnDisconnected : Unlisten
}.

(** [<script setup>]: [fc] and [fd] are the functions this run of the
    setup creates. *)
Definition setup (fc fd : Fn) (m : ModuleState) : ModuleState * Instance :=
  let '(m1, ws) := useAppWebSocket m in
  let '(m2, u1) := api_onConnected ws fc m1 in
  let '(m3, u2) := api_onDisconnected ws fd m2 in
  (m3, mkInstance fc fd u1 u2).

(** The [onUnmounted] hook. *)
Definition unmounted (i : Instance) (l : Listeners) : Listeners :=
  let '(l1, _) := call_unlisten (unlistenOnConnected i) l in
  let '(l2, _) := call_unlisten (unlistenOnDisconnected i) l1 in
  l2.

End Header.

(** ** The module manager *)

Module ModuleManager.

(** Modelled from the spec: the lifecycle states of a module (section 3).
    The manager itself, [core/module_manager.py], is not part of the code
    embedded here. *)
Inductive LifecycleState :=
| Registered | Starting | Running | Stopping | Stopped | Failed.

(** Modelled from the spec: a module descriptor (section 3): its unique
    name, the names it depends on, its lifecycle state. *)
Record Descriptor := mkDescriptor {
  name : string;
  deps : list string;
  state : LifecycleState
}.

(** Modelled from the spec: the registry of descriptors the manager owns
    (section 4.3), in the order of registration. *)
Definition Registry := list Descriptor.

(** Modelled from the spec: the failures of [register] and [startAll]
    (sections 4.3 and 7). *)
Inductive Failure :=
| DuplicateModule : string -> Failure
| UnknownDependency : string -> string -> Failure
| DependencyCycle : list string -> Failure
| StartError : string -> Failure.

(** Modelled from the spec: the lifecycle methods [start] and [stop] of
    the module contract (section 4.2), as the manager calls them. *)
Inductive Call :=
| CallStart : string -> Call
| CallStop : string -> Call.

(** Modelled from the spec: the names registered. *)
Definition names (r : Registry) : list string := map name r.

(** Modelled from the spec: whether a name is among those given. *)
Definition known (n : string) (ns : list string) : bool :=
  existsb (String.eqb n) ns.

(** Modelled from the spec: a lifecycle transition of the module named
    [n] (section 3). *)
Definition set_state (n : string) (s : LifecycleState) (r : Registry) : Registry :=
  map (fun d => if String.eqb (name d) n
                then mkDescriptor (name d) (deps d) s else d) r.

(** Modelled from the spec: the current lifecycle state of the module
    named [n]. *)
Definition state_of (n : string) (r : Registry) : option LifecycleState :=
  match find (fun d => String.eqb (name d) n) r with
  | Some d => Some (state d)
  | None => None
  end.

(** Modelled from the spec: [startAll] fails with [UnknownDependency] if
    a module declares a dependency on a name never registered. *)
Fixpoint unknown_dependency (all : list string) (r : Registry)
    : option (string * string) :=
  match r with
  | [] => None
  | d :: r' =>
      match find (fun x => negb (known x all)) (deps d) with
      | Some x => Some (name d, x)
      | None => unknown_dependency all r'
      end
  end.

(** Modelled from the spec: the start order is a topological sort of the
    dependency graph.  Each round appends the modules all of whose
    dependencies are already placed; a round that places nothing while
    modules remain has met a cycle, reported through the modules that
    could not be placed. *)
Fixpoint start_order (rounds : nat) (pending : Registry) (placed : list string)
    : list string + list string :=
  match pending with
  | [] => inl placed
  | _ =>
      match rounds with
      | 0 => inr (names pending)
      | S rounds' =>
          let ready d := forallb (fun x => known x placed) (deps d) in
          match filter ready pending with
          | [] => inr (names pending)
          | now =>
              start_order rounds' (filter (fun d => negb (ready d)) pending)
                          (placed ++ names now)
          end
      end
  end.

(** Modelled from the spec: [stop() -> ok]; the module goes through
    [Stopping] to [Stopped]. *)
Fixpoint stop_each (ns : list string) (r : Registry) : Registry * list Call :=
  match ns with
  | [] => (r, [])
  | n :: ns' =>
      let r1 := set_state n Stopped (set_state n Stopping r) in
      let '(r2, cs) := stop_each ns' r1 in
      (r2, CallStop n :: cs)
  end.

(** Modelled from the spec: modules are started strictly in order;
    [started] holds the modules started so far, the latest first.  If a
    [start] fails, the module is [Failed] and all modules already started
    during this call are stopped in reverse start order before the
    failure is reported. *)
Fixpoint start_each (start : string -> bool) (order started : list string)
    (r : Registry) : option Failure * Registry * list Call :=
  match order with
  | [] => (None, r, [])
  | n :: order' =>
      let r1 := set_state n Starting r in
      if start n then
        let '(res, r2, cs) :=
          start_each start order' (n :: started) (set_state n Running r1) in
        (res, r2, CallStart n :: cs)
      else
        let '(r2, cs) := stop_each started (set_state n Failed r1) in
        (Some (StartError n), r2, CallStart n :: cs)
  end.

(** Modelled from the spec: [startAll()] (section 4.3).  [start n] says
    whether the [start] of module [n] succeeds. *)
Definition startAll (start : string -> bool) (r : Registry)
    : option Failure * Registry * list Call :=
  match unknown_dependency (names r) r with
  | Some (n, x) => (Some (UnknownDependency n x), r, [])
  | None =>
      match start_order (length r) r [] with
      | inr cycle => (Some (DependencyCycle cycle), r, [])
      | inl order => start_each start order [] r
      end
  end.

(** Modelled from the spec: the modules that are [Running] are among
    those started so far during this call. *)
Definition running_within (started : list string) (r : Registry) : Prop :=
  forall d, In d r -> state d = Running -> In (name d) started.

End ModuleManager.

(** Modelled from the spec: the two modules of its example (section 8):
    [memory] has no dependencies, [brain] depends on [memory]. *)
Module ManagerScenario.

Definition memory_and_brain : ModuleManager.Registry :=
  [ModuleManager.mkDescriptor "brain" ["memory"%string] ModuleManager.Registered;
   ModuleManager.mkDescriptor "memory" [] ModuleManager.Registered].

End ManagerScenario.

(** ** Predicates on registries and traces *)

(** Slot [p] of the set under key [k] holds [fn]. *)
Definition slot (k : WSKind) (p : nat) (fn : Fn) (l : Listeners) : Prop :=
  nth_error (get k l) p = Some (Some fn).

(** [fn] is an element of the set under key [k]. *)
Definition registered (k : WSKind) (fn : Fn) (l : Listeners) : Prop :=
  In fn (JSSet.elements (get k l)).

(** [fn] is registered under no key other than [k]. *)
Definition only_under (k : WSKind) (fn : Fn) (l : Listeners) : Prop :=
  forall k', registered k' fn l -> k' = k.

(** In [t], nobody subscribes [fn] under [k] again after it was
    unsubscribed. *)
Definition no_readd (k : WSKind) (fn : Fn) (t : Trace) : Prop :=
  forall t1 t2, t = t1 ++ CalledDelete k fn :: t2 -> ~ In (CalledAdd k fn) t2.

(** Two registries whose sets have the same elements in the same order. *)
Definition same_elements (l l' : Listeners) : Prop :=
  forall k, JSSet.elements (get k l) = JSSet.elements (get k l').

(** The elements a walk under key [k] that stands at slot [index] still
    has ahead of it. *)
Definition ahead (k : WSKind) (index : nat) (l : Listeners) : list Fn :=
  JSSet.elements (skipn index (get k l)).

(** Two registries with the same elements, and a walk under key [k] in
    each of them with the same elements ahead. *)
Definition alike (k : WSKind) (i : nat) (l : Listeners)
    (i' : nat) (l' : Listeners) : Prop :=
  wf l /\ wf l' /\ same_elements l l' /\
  i <= length (get k l) /\ i' <= length (get k l') /\
  ahead k i l = ahead k i' l'.

(** ** Concrete handlers, sets and events *)

Module Scenario.

Definition f1 : Fn := 1.
Definition f2 : Fn := 2.
Definition f3 : Fn := 3.
Definition flag : Fn := 9.

Definition ev_open : WSEvent := mkEvent Connected 0.
Definition ev_msg1 : WSEvent := mkEvent Message 1.
Definition ev_msg2 : WSEvent := mkEvent Message 2.
Definition ev_close : WSEvent := mkEvent Disconnected 3.

(** Handlers that only look at the event. *)
Definition observers : Handlers := fun _ _ => Return.

(** [f1] throws whenever the socket opens. *)
Definition throws_on_open : Handlers :=
  fun fn ev =>
    match ev_kind ev with
    | Connected => if Nat.eqb fn f1 then Throw else Return
    | _ => Return
    end.

(** [f2] throws on the first message only. *)
Definition throws_on_first_message : Handlers :=
  fun fn ev =>
    if Nat.eqb fn f2 && WSEvent_eqb ev ev_msg1 then Throw else Return.

(** [f1] renews its own subscription the first time it is called: it
    removes a marker function from the [error] set and, if the marker was
    still there, unsubscribes and subscribes itself again. *)
Definition renews_once : Handlers :=
  fun fn _ =>
    if Nat.eqb fn f1 then
      Unsubscribe Error flag (fun found =>
        if found then
          Unsubscribe Message f1 (fun _ => Subscribe Message f1 Return)
        else Return)
    else Return.

(** [f1] is a one-shot handler: it unsubscribes itself when called. *)
Definition one_shot : Handlers :=
  fun fn _ =>
    if Nat.eqb fn f1 then Unsubscribe Message f1 (fun _ => Return) else Return.

(** [f1], then [f2], subscribed under [k]. *)
Definition two (k : WSKind) : Listeners :=
  fst (subscribe k f2 (fst (subscribe k f1 listeners0))).

(** [f1], [f2], [f3] subscribed under [k], in that order. *)
Definition three (k : WSKind) : Listeners :=
  fst (subscribe k f3 (two k)).

(** [f1] and [f2] listen for messages; the marker is in the [error] set. *)
Definition two_and_flag : Listeners :=
  fst (onError flag (two Message)).

End Scenario.

(** The walk of the set for [ev] after its first [n] turns, if it has not
    ended before: the registry it has reached and what has happened so
    far.  After [n] turns the walk stands at slot [n]. *)
Definition after_turns (body : Handlers) (n : nat) (ev : WSEvent)
    (l : Listeners) : option (Listeners * Trace) :=
  match forEach body n (ev_kind ev) ev 0 l with
  | (Diverged, l', t) => Some (l', t)
  | _ => None
  end.

(** In [t], [fn] is not unsubscribed under [k] before it has been
    called: every call of the unsubscribe closure of [fn] comes after a
    call of [fn]. *)
Definition called_before_deleted (k : WSKind) (fn : Fn) (t : Trace) : Prop :=
  forall a b, t = a ++ CalledDelete k fn :: b -> 1 <= calls_any fn a.

(** How often [fn] was called with an event of kind [k]. *)
Fixpoint calls_of_kind (k : WSKind) (fn : Fn) (t : Trace) : nat :=
  match t with
  | [] => 0
  | Invoked fn' ev :: t' =>
      (if Nat.eqb fn' fn && WSKind_eqb (ev_kind ev) k then 1 else 0)
      + calls_of_kind k fn t'
  | _ :: t' => calls_of_kind k fn t'
  end.

(** In [t], nobody subscribes or unsubscribes [fn], under any key. *)
Definition untouched (fn : Fn) (t : Trace) : Prop :=
  forall k, ~ In (CalledAdd k fn) t /\ ~ In (CalledDelete k fn) t.

(** ** The indicator of the header component *)

Module Indicator.

(** [const isConnected = ref(false)] *)
Definition initial : bool := false.

(** [isConnected.value] after the calls recorded in [t], starting from
    [value]: the function subscribed with [onConnected] assigns [true],
    the one subscribed with [onDisconnected] assigns [false]; nothing else
    in the component assigns it. *)
Fixpoint isConnected (i : Header.Instance) (value : bool) (t : Trace) : bool :=
  match t with
  | [] => value
  | Invoked fn _ :: t' =>
      isConnected i
        (if Nat.eqb fn (Header.fnConnected i) then true
         else if Nat.eqb fn (Header.fnDisconnected i) then false
         else value) t'
  | _ :: t' => isConnected i value t'
  end.

(** The class of the dot in the template. *)
Definition dot_class (connected : bool) : string :=
  if connected then "bg-green-400" else "bg-red-400".

(** The class of the text in the template. *)
Definition text_class (connected : bool) : string :=
  if connected then "text-green-400" else "text-red-400".

(** The text in the template. *)
Definition text (connected : bool) : string :=
  if connected then "connected" else "disconnected".

(** Whether the socket is open after it delivered [evs], given whether it
    was open before. *)
Fixpoint last_status (value : bool) (evs : list WSEvent) : bool :=
  match evs with
  | [] => value
  | ev :: evs' =>
      last_status
        (match ev_kind ev with
         | Connected => true
         | Disconnected => false
         | _ => value
         end) evs'
  end.

End Indicator.

(** A handler body that renews its own subscription: it calls its
    unsubscribe closure and subscribes itself again. *)
Definition renews (k : WSKind) (fn : Fn) : Prog :=
  Unsubscribe k fn (fun _ => Subscribe k fn Return).

(** More concrete handlers. *)
Module Cases.

(** [f1] subscribes [f3] for messages whenever it is called. *)
Definition subscribes_late : Handlers :=
  fun fn _ =>
    if Nat.eqb fn Scenario.f1 then Subscribe Message Scenario.f3 Return
    else Return.

(** [f1] unsubscribes [f2] whenever it is called. *)
Definition removes_next : Handlers :=
  fun fn _ =>
    if Nat.eqb fn Scenario.f1
    then Unsubscribe Message Scenario.f2 (fun _ => Return)
    else Return.

(** [f1] is a one-shot handler that hands over to [f3]: when called, it
    unsubscribes itself and subscribes [f3] for messages. *)
Definition one_shot_then_subscribes : Handlers :=
  fun fn _ =>
    if Nat.eqb fn Scenario.f1
    then Unsubscribe Message Scenario.f1
           (fun _ => Subscribe Message Scenario.f3 Return)
    else Return.

(** [f2] renews its subscription for messages whenever it is called. *)
Definition renews_always : Handlers :=
  fun fn _ =>
    if Nat.eqb fn Scenario.f2 then renews Message Scenario.f2 else Return.

(** [f1] listens under both [connected] and [message]. *)
Definition both_kinds : Listeners :=
  fst (onMessage Scenario.f1 (fst (onConnected Scenario.f1 listeners0))).

(** A header mounted on the freshly loaded module, its two functions
    being [10] and [11], next to a message listener. *)
Definition mounted : ModuleState :=
  fst (Header.setup 10 11
         (mkModule None (fst (onMessage Scenario.f1 listeners0)) 0)).

End Cases.

(** * Properties *)

(** ** Sets *)

Module JSSetFacts.
Import JSSet.

Lemma has_In fn s : has fn s = true <-> In fn (elements s).
Proof.
  induction s as [|[e|] s IH]; simpl.
  - split; [discriminate | tauto].
  - destruct (Nat.eqb_spec e fn) as [->|ne].
    + split; auto.
    + rewrite IH. split; [auto | intros [H|H]; [contradiction | exact H]].
  - exact IH.
Qed.

Lemma has_false fn s : has fn s = false <-> ~ In fn (elements s).
Proof.
  rewrite <- has_In. destruct (has fn s); split; congruence.
Qed.

Lemma elements_app s1 s2 : elements (s1 ++ s2) = elements s1 ++ elements s2.
Proof.
  induction s1 as [|[e|] s1 IH]; simpl; congruence.
Qed.

Lemma add_present fn s : has fn s = true -> add fn s = s.
Proof. unfold add. intros ->. reflexivity. Qed.

Lemma add_absent fn s : has fn s = false -> add fn s = s ++ [Some fn].
Proof. unfold add. intros ->. reflexivity. Qed.

Lemma has_add fn s : has fn (add fn s) = true.
Proof.
  unfold add. destruct (has fn s) eqn:E; [exact E|].
  apply has_In. rewrite elements_app. apply in_or_app. right. simpl. auto.
Qed.

Lemma add_add fn s : add fn (add fn s) = add fn s.
Proof. apply add_present, has_add. Qed.

Lemma In_elements_add x fn s :
  In x (elements (add fn s)) <-> x = fn \/ In x (elements s).
Proof.
  unfold add. destruct (has fn s) eqn:E.
  - apply has_In in E. split; [auto | intros [->|H]; assumption].
  - rewrite elements_app, in_app_iff. simpl. intuition congruence.
Qed.

Lemma length_delete fn s : length (fst (delete fn s)) = length s.
Proof.
  induction s as [|[e|] s IH]; simpl; auto.
  - destruct (Nat.eqb e fn); simpl; auto.
    destruct (delete fn s); simpl in *. congruence.
  - destruct (delete fn s); simpl in *. congruence.
Qed.

Lemma snd_delete fn s : snd (delete fn s) = has fn s.
Proof.
  induction s as [|[e|] s IH]; simpl; auto.
  - destruct (Nat.eqb e fn); simpl; auto.
    destruct (delete fn s); simpl in *. exact IH.
  - destruct (delete fn s); simpl in *. exact IH.
Qed.

Lemma delete_absent fn s : has fn s = false -> delete fn s = (s, false).
Proof.
  induction s as [|[e|] s IH]; simpl; auto.
  - destruct (Nat.eqb e fn); [discriminate|].
    intros H. rewrite (IH H). reflexivity.
  - intros H. rewrite (IH H). reflexivity.
Qed.

Lemma In_elements_delete x fn s :
  In x (elements (fst (delete fn s))) -> In x (elements s).
Proof.
  induction s as [|[e|] s IH]; simpl; auto.
  - destruct (Nat.eqb e fn); simpl; auto.
    destruct (delete fn s); simpl in *. tauto.
  - destruct (delete fn s); simpl in *. exact IH.
Qed.

Lemma wf_add fn s : NoDup (elements s) -> NoDup (elements (add fn s)).
Proof.
  intros H. unfold add. destruct (has fn s) eqn:E; [exact H|].
  rewrite elements_app. simpl. apply has_false in E.
  apply NoDup_app; auto.
  - constructor; [simpl; tauto | constructor].
  - intros a Ha [<-|[]]. exact (E Ha).
Qed.

Lemma wf_delete fn s : NoDup (elements s) -> NoDup (elements (fst (delete fn s))).
Proof.
  induction s as [|[e|] s IH]; simpl; auto.
  - intros H. inversion H as [|? ? Hn Hd]; subst.
    destruct (Nat.eqb e fn); simpl; auto.
    pose proof (@In_elements_delete e fn s) as Hin.
    destruct (delete fn s); simpl in *. constructor; auto.
  - destruct (delete fn s); simpl in *. exact IH.
Qed.

Lemma not_In_delete fn s :
  NoDup (elements s) -> ~ In fn (elements (fst (delete fn s))).
Proof.
  induction s as [|[e|] s IH]; simpl; auto.
  - intros H. inversion H as [|? ? Hn Hd]; subst.
    destruct (Nat.eqb_spec e fn) as [->|ne]; simpl; auto.
    specialize (IH Hd). destruct (delete fn s); simpl in *. tauto.
  - destruct (delete fn s); simpl in *. exact IH.
Qed.

(** A slot that holds [x] after [delete] held it before. *)
Lemma slot_delete fn s p x :
  nth_error (fst (delete fn s)) p = Some (Some x) ->
  nth_error s p = Some (Some x).
Proof.
  revert p. induction s as [|[e|] s IH]; intros p; simpl; auto.
  - destruct (Nat.eqb e fn); simpl.
    + destruct p; simpl; [discriminate | auto].
    + specialize (IH (pred p)). destruct (delete fn s); simpl in *.
      destruct p; simpl in *; auto.
  - specialize (IH (pred p)). destruct (delete fn s); simpl in *.
    destruct p; simpl in *; auto.
Qed.

(** [delete fn] leaves the slots of other functions alone. *)
Lemma slot_delete_other fn s p x :
  x <> fn -> nth_error s p = Some (Some x) ->
  nth_error (fst (delete fn s)) p = Some (Some x).
Proof.
  intros ne. revert p. induction s as [|[e|] s IH]; intros p; simpl; auto.
  - destruct (Nat.eqb_spec e fn) as [->|ne']; simpl.
    + destruct p; simpl; [congruence | auto].
    + specialize (IH (pred p)). destruct (delete fn s); simpl in *.
      destruct p; simpl in *; auto.
  - specialize (IH (pred p)). destruct (delete fn s); simpl in *.
    destruct p; simpl in *; auto.
Qed.

(** A slot that holds [x] after [add fn] held it before, unless [x] is
    [fn]. *)
Lemma slot_add fn s p x :
  nth_error (add fn s) p = Some (Some x) ->
  nth_error s p = Some (Some x) \/ x = fn.
Proof.
  unfold add. destruct (has fn s); auto.
  intros H. destruct (Nat.lt_ge_cases p (length s)) as [lt|ge].
  - rewrite nth_error_app1 in H by exact lt. auto.
  - rewrite nth_error_app2 in H by exact ge.
    destruct (p - length s) as [|[|n]]; simpl in H; try discriminate.
    right. congruence.
Qed.

(** [add] leaves every occupied slot alone. *)
Lemma slot_add_keep fn s p x :
  nth_error s p = Some x -> nth_error (add fn s) p = Some x.
Proof.
  unfold add. destruct (has fn s); auto.
  intros H. rewrite nth_error_app1; auto.
  apply nth_error_Some. congruence.
Qed.

Lemma slot_In s p x : nth_error s p = Some (Some x) -> In x (elements s).
Proof.
  revert p. induction s as [|[e|] s IH]; intros [|p]; simpl; try discriminate.
  - intros [= ->]. auto.
  - intros H. right. eauto.
  - eauto.
Qed.

(** In a set without duplicates a function has one slot. *)
Lemma slot_unique s p q x :
  NoDup (elements s) ->
  nth_error s p = Some (Some x) -> nth_error s q = Some (Some x) -> p = q.
Proof.
  revert p q. induction s as [|[e|] s IH]; intros p q; simpl.
  - destruct p; discriminate.
  - intros H. inversion H as [|? ? Hn Hd]; subst.
    destruct p, q; simpl; auto.
    + intros [= ->] Hq. apply slot_In in Hq. contradiction.
    + intros Hp [= ->]. apply slot_In in Hp. contradiction.
  - intros H. destruct p, q; simpl; try discriminate; auto.
Qed.

Lemma length_add fn s : length s <= length (add fn s).
Proof.
  unfold add. destruct (has fn s); [lia|]. rewrite length_app. simpl. lia.
Qed.

End JSSetFacts.

(** ** Sets seen through their elements *)

Module JSSetView.
Import JSSet JSSetFacts.

Lemma has_same s s' fn : elements s = elements s' -> has fn s = has fn s'.
Proof.
  intros E. destruct (has fn s') eqn:H.
  - apply has_In. rewrite E. apply has_In, H.
  - apply has_false. rewrite E. apply has_false, H.
Qed.

Lemma elements_add fn s :
  elements (add fn s) = if has fn s then elements s else elements s ++ [fn].
Proof.
  unfold add. destruct (has fn s); [reflexivity|]. apply elements_app.
Qed.

Lemma elements_skipn_add fn s i :
  i <= length s ->
  elements (skipn i (add fn s)) =
  if has fn s then elements (skipn i s) else elements (skipn i s) ++ [fn].
Proof.
  intros L. unfold add. destruct (has fn s); [reflexivity|].
  rewrite skipn_app, elements_app.
  replace (i - length s) with 0 by lia. reflexivity.
Qed.

Lemma In_elements_skipn x i s : In x (elements (skipn i s)) -> In x (elements s).
Proof.
  revert i. induction s as [|[e|] s IH]; intros [|i]; simpl; auto.
  - intros H. right. eapply IH, H.
  - apply IH.
Qed.

(** In a set without duplicates [delete] removes the function from the
    elements, and from those that lie ahead of any slot. *)
Lemma elements_skipn_delete fn s : forall i,
  NoDup (elements s) ->
  elements (skipn i (fst (delete fn s))) =
  remove Nat.eq_dec fn (elements (skipn i s)).
Proof.
  induction s as [|[e|] s IH]; intros i ND.
  - destruct i; reflexivity.
  - simpl in ND. inversion ND as [|? ? Nin ND']; subst. simpl.
    destruct (Nat.eqb_spec e fn) as [->|ne].
    + assert (R : forall j, remove Nat.eq_dec fn (elements (skipn j s)) =
                            elements (skipn j s)).
      { intros j. apply notin_remove. intros I. apply Nin.
        eapply In_elements_skipn, I. }
      destruct i; simpl.
      * destruct (Nat.eq_dec fn fn); [|congruence]. symmetry. apply (R 0).
      * symmetry. apply R.
    + pose proof (IH 0 ND') as IH0. pose proof (IH (pred i) ND') as IHi.
      destruct (delete fn s) as [d found]. simpl in *.
      destruct i; simpl.
      * destruct (Nat.eq_dec fn e); [congruence|]. f_equal. exact IH0.
      * exact IHi.
  - simpl in ND. pose proof (IH 0 ND) as IH0. pose proof (IH (pred i) ND) as IHi.
    simpl. destruct (delete fn s) as [d found]. simpl in *.
    destruct i; simpl; [exact IH0|exact IHi].
Qed.

End JSSetView.

(** ** The registry *)

Import JSSetFacts.

Lemma WSKind_eqb_spec a b : reflect (a = b) (WSKind_eqb a b).
Proof. destruct a, b; simpl; constructor; congruence. Qed.

Lemma get_set_same k s l : get k (set k s l) = s.
Proof. destruct k; reflexivity. Qed.

Lemma get_set_other k k' s l : k <> k' -> get k' (set k s l) = get k' l.
Proof. destruct k, k'; simpl; congruence. Qed.

Lemma set_get k l : set k (get k l) l = l.
Proof. destruct k, l; reflexivity. Qed.

Lemma set_set k s s' l : set k s (set k s' l) = set k s l.
Proof. destruct k; reflexivity. Qed.

Lemma subscribe_eq k fn l :
  subscribe k fn l = (set k (JSSet.add fn (get k l)) l, mkUnlisten k fn).
Proof. destruct k; reflexivity. Qed.

Lemma call_unlisten_eq k fn l :
  call_unlisten (mkUnlisten k fn) l =
  (set k (fst (JSSet.delete fn (get k l))) l, snd (JSSet.delete fn (get k l))).
Proof.
  unfold call_unlisten. simpl. destruct (JSSet.delete fn (get k l)). reflexivity.
Qed.

Lemma wf_listeners0 : wf listeners0.
Proof. intros []; constructor. Qed.

Lemma wf_subscribe k fn l : wf l -> wf (fst (subscribe k fn l)).
Proof.
  intros H k'. rewrite subscribe_eq. simpl.
  destruct (WSKind_eqb_spec k k') as [<-|ne].
  - rewrite get_set_same. apply wf_add, H.
  - rewrite get_set_other by exact ne. apply H.
Qed.

Lemma wf_call_unlisten u l : wf l -> wf (fst (call_unlisten u l)).
Proof.
  destruct u as [k fn]. intros H k'. rewrite call_unlisten_eq. simpl.
  destruct (WSKind_eqb_spec k k') as [<-|ne].
  - rewrite get_set_same. apply wf_delete, H.
  - rewrite get_set_other by exact ne. apply H.
Qed.

(** A slot filled after a subscription was filled before, or holds the
    function just subscribed. *)
Lemma slot_subscribe k fn l k' p x :
  slot k' p x (fst (subscribe k fn l)) -> slot k' p x l \/ (k' = k /\ x = fn).
Proof.
  unfold slot. rewrite subscribe_eq. simpl.
  destruct (WSKind_eqb_spec k k') as [<-|ne].
  - rewrite get_set_same. intros H. apply slot_add in H. tauto.
  - rewrite get_set_other by exact ne. auto.
Qed.

Lemma slot_subscribe_keep k fn l k' p x :
  slot k' p x l -> slot k' p x (fst (subscribe k fn l)).
Proof.
  unfold slot. rewrite subscribe_eq. simpl.
  destruct (WSKind_eqb_spec k k') as [<-|ne].
  - rewrite get_set_same. apply slot_add_keep.
  - rewrite get_set_other by exact ne. auto.
Qed.

Lemma slot_unlisten k fn l k' p x :
  slot k' p x (fst (call_unlisten (mkUnlisten k fn) l)) -> slot k' p x l.
Proof.
  unfold slot. rewrite call_unlisten_eq. simpl.
  destruct (WSKind_eqb_spec k k') as [<-|ne].
  - rewrite get_set_same. apply slot_delete.
  - rewrite get_set_other by exact ne. auto.
Qed.

Lemma slot_unlisten_keep k fn l k' p x :
  CalledDelete k fn <> CalledDelete k' x ->
  slot k' p x l -> slot k' p x (fst (call_unlisten (mkUnlisten k fn) l)).
Proof.
  unfold slot. rewrite call_unlisten_eq. simpl. intros ne.
  destruct (WSKind_eqb_spec k k') as [<-|nk].
  - rewrite get_set_same. apply slot_delete_other. congruence.
  - rewrite get_set_other by exact nk. auto.
Qed.

Lemma not_registered_unlisten k fn l :
  wf l -> ~ registered k fn (fst (call_unlisten (mkUnlisten k fn) l)).
Proof.
  intros W. unfold registered. rewrite call_unlisten_eq. simpl.
  rewrite get_set_same. apply not_In_delete, W.
Qed.

Lemma slot_registered k p fn l : slot k p fn l -> registered k fn l.
Proof. apply slot_In. Qed.

Lemma registered_slot k fn l : registered k fn l -> exists p, slot k p fn l.
Proof.
  unfold registered, slot. induction (get k l) as [|[e|] s IH]; simpl.
  - intros [].
  - intros [->|H].
    + exists 0. reflexivity.
    + destruct (IH H) as [p Hp]. exists (S p). exact Hp.
  - intros H. destruct (IH H) as [p Hp]. exists (S p). exact Hp.
Qed.

Lemma slot_one k p q fn l : wf l -> slot k p fn l -> slot k q fn l -> p = q.
Proof. intros H. apply slot_unique, H. Qed.

(** ** Handler bodies *)

Lemma calls_any_app fn t1 t2 :
  calls_any fn (t1 ++ t2) = calls_any fn t1 + calls_any fn t2.
Proof.
  induction t1 as [|[g e|k g|k g] t1 IH]; simpl; auto. rewrite IH. lia.
Qed.

Lemma invoked_app t1 t2 : invoked (t1 ++ t2) = invoked t1 ++ invoked t2.
Proof.
  induction t1 as [|[g e|k g|k g] t1 IH]; simpl; auto. rewrite IH. reflexivity.
Qed.

Lemma Item_eq_dec (a b : Item) : {a = b} + {a <> b}.
Proof. repeat decide equality. Defined.

Lemma no_readd_cons k fn x t : no_readd k fn (x :: t) -> no_readd k fn t.
Proof. intros H t1 t2 ->. apply (H (x :: t1) t2). reflexivity. Qed.

Lemma no_readd_app_r k fn t1 t2 : no_readd k fn (t1 ++ t2) -> no_readd k fn t2.
Proof.
  induction t1 as [|x t1 IH]; simpl; [auto|].
  intros H. apply IH. eapply no_readd_cons, H.
Qed.

Lemma no_readd_app_l k fn t1 t2 : no_readd k fn (t1 ++ t2) -> no_readd k fn t1.
Proof.
  intros H a b ->. intros I. apply (H a (b ++ t2)).
  - rewrite <- app_assoc. reflexivity.
  - apply in_or_app. auto.
Qed.

Lemma no_readd_after k fn t1 t2 :
  no_readd k fn (t1 ++ t2) -> In (CalledDelete k fn) t1 ->
  ~ In (CalledAdd k fn) t2.
Proof.
  intros H I. apply in_split in I. destruct I as (a & b & ->).
  intros I. apply (H a (b ++ t2)).
  - rewrite <- app_assoc. reflexivity.
  - apply in_or_app. auto.
Qed.

Lemma no_add_no_readd k fn t : ~ In (CalledAdd k fn) t -> no_readd k fn t.
Proof.
  intros N t1 t2 -> I. apply N, in_or_app. right. right. exact I.
Qed.

Lemma run_prog_subscribe k fn next l :
  run_prog (Subscribe k fn next) l =
  let r := run_prog next (fst (subscribe k fn l)) in
  (fst (fst r), snd (fst r), CalledAdd k fn :: snd r).
Proof. simpl. destruct (run_prog next _) as [[b l1] t1]. reflexivity. Qed.

Lemma run_prog_unsubscribe k fn next l :
  run_prog (Unsubscribe k fn next) l =
  let u := call_unlisten (mkUnlisten k fn) l in
  let r := run_prog (next (snd u)) (fst u) in
  (fst (fst r), snd (fst r), CalledDelete k fn :: snd r).
Proof.
  simpl. destruct (call_unlisten _ l) as [l0 found].
  simpl. destruct (run_prog _ l0) as [[b l1] t1]. reflexivity.
Qed.

(** Take one instruction off the body in [H : run_prog _ _ = _]. *)
Ltac prog_step H R :=
  first [rewrite run_prog_subscribe in H | rewrite run_prog_unsubscribe in H];
  cbv zeta in H;
  match type of H with
  | context [run_prog ?p ?l] =>
      let b := fresh "b" in let l1 := fresh "l1" in let t1 := fresh "t1" in
      destruct (run_prog p l) as [[b l1] t1] eqn:R
  end;
  simpl in H; inversion H; subst; clear H.

(** Open one turn of the loop in [H : forEach _ (S _) _ _ _ _ = _]:
    the slot holds a function that throws, holds one that returns, is
    empty, or lies past the end. *)
Ltac walk_step H E R F :=
  simpl in H;
  match type of H with
  | context [nth_error (get ?k ?l) ?i] =>
      destruct (nth_error (get k l) i) as [[?g|]|] eqn:E;
      [ match type of H with
        | context [run_prog ?p l] =>
            let l1 := fresh "l1" in let t1 := fresh "t1" in
            destruct (run_prog p l) as [[[|] l1] t1] eqn:R;
            [ inversion H; subst; clear H
            | match type of H with
              | context [forEach ?b ?f k ?ev (S i) l1] =>
                  let o2 := fresh "o2" in let l2 := fresh "l2" in
                  let t2 := fresh "t2" in
                  destruct (forEach b f k ev (S i) l1) as [[o2 l2] t2] eqn:F;
                  inversion H; subst; clear H
              end ]
        end
      | idtac
      | inversion H; subst; clear H ]
  end.

(** Open the first delivery in [H : run _ _ (_ :: _) _ = _]. *)
Ltac run_step H D R :=
  simpl in H;
  match type of H with
  | context [dispatch ?b ?f ?e ?l] =>
      let o1 := fresh "o1" in let l1 := fresh "l1" in let t1 := fresh "t1" in
      destruct (dispatch b f e l) as [[o1 l1] t1] eqn:D;
      match type of H with
      | context [run b f ?es l1] =>
          let os := fresh "os" in let l2 := fresh "l2" in let t2 := fresh "t2" in
          destruct (run b f es l1) as [[os l2] t2] eqn:R
      end
  end.

Section Body.

Variable body : Handlers.

Lemma run_prog_wf p : forall l threw l' t,
  run_prog p l = (threw, l', t) -> wf l -> wf l'.
Proof.
  induction p as [| |k fn next IH|k fn next IH]; intros l threw l' t H W.
  - inversion H; subst; exact W.
  - inversion H; subst; exact W.
  - prog_step H R. eapply IH; [exact R|]. apply wf_subscribe, W.
  - prog_step H R. eapply IH; [exact R|]. apply wf_call_unlisten, W.
Qed.

(** A body calls no handler. *)
Lemma run_prog_invoked p : forall l threw l' t,
  run_prog p l = (threw, l', t) -> invoked t = [].
Proof.
  induction p as [| |k fn next IH|k fn next IH]; intros l threw l' t H.
  - inversion H; reflexivity.
  - inversion H; reflexivity.
  - prog_step H R. simpl. eapply IH, R.
  - prog_step H R. simpl. eapply IH, R.
Qed.

Lemma invoked_nil_calls fn t : invoked t = [] -> calls_any fn t = 0.
Proof.
  induction t as [|[g e|k g|k g] t IH]; simpl; auto. discriminate.
Qed.

Lemma run_prog_calls p l threw l' t fn :
  run_prog p l = (threw, l', t) -> calls_any fn t = 0.
Proof. intros H. eapply invoked_nil_calls, run_prog_invoked, H. Qed.

(** A slot is filled by a body only through a subscription. *)
Lemma run_prog_new p : forall l threw l' t k' q x,
  run_prog p l = (threw, l', t) ->
  slot k' q x l' -> slot k' q x l \/ In (CalledAdd k' x) t.
Proof.
  induction p as [| |k fn next IH|k fn next IH];
    intros l threw l' t k' q x H S.
  - inversion H; subst; auto.
  - inversion H; subst; auto.
  - prog_step H R.
    destruct (IH _ _ _ _ _ _ _ R S) as [S1|I]; [|simpl; auto].
    apply slot_subscribe in S1. destruct S1 as [S1|[-> ->]]; simpl; auto.
  - prog_step H R.
    destruct (IH _ _ _ _ _ _ _ _ R S) as [S1|I]; [|simpl; auto].
    left. eapply slot_unlisten, S1.
Qed.

(** A slot is emptied by a body only through an unsubscribe call. *)
Lemma run_prog_keep p : forall l threw l' t k' q x,
  run_prog p l = (threw, l', t) ->
  slot k' q x l -> ~ In (CalledDelete k' x) t -> slot k' q x l'.
Proof.
  induction p as [| |k fn next IH|k fn next IH];
    intros l threw l' t k' q x H S N.
  - inversion H; subst; auto.
  - inversion H; subst; auto.
  - prog_step H R. eapply IH; [exact R| |].
    + apply slot_subscribe_keep, S.
    + intros I. apply N. simpl. auto.
  - prog_step H R. eapply IH; [exact R| |].
    + apply slot_unlisten_keep; [|exact S].
      intros E. apply N. simpl. auto.
    + intros I. apply N. simpl. auto.
Qed.

(** A function that a body unsubscribes, and does not subscribe again
    afterwards, is registered no more when the body ends. *)
Lemma run_prog_deleted k fn p : forall l threw l' t,
  run_prog p l = (threw, l', t) -> wf l ->
  In (CalledDelete k fn) t -> no_readd k fn t ->
  forall q, ~ slot k q fn l'.
Proof.
  induction p as [| |k0 g next IH|k0 g next IH]; intros l threw l' t H W I N q.
  - inversion H; subst. destruct I.
  - inversion H; subst. destruct I.
  - prog_step H R. destruct I as [I|I]; [discriminate|].
    eapply IH; [exact R| |exact I|eapply no_readd_cons, N].
    apply wf_subscribe, W.
  - prog_step H R. destruct I as [I|I].
    + inversion I; subst. intros S.
      destruct (run_prog_new _ _ R S) as [S0|A].
      * apply slot_registered in S0.
        revert S0. apply not_registered_unlisten, W.
      * exact (N [] t1 eq_refl A).
    + eapply IH; [exact R| |exact I|eapply no_readd_cons, N].
      apply wf_call_unlisten, W.
Qed.

(** ** One walk over a set *)

Lemma forEach_wf fuel k ev : forall index l o l' t,
  forEach body fuel k ev index l = (o, l', t) -> wf l -> wf l'.
Proof.
  induction fuel as [|fuel IH]; intros index l o l' t H W.
  - inversion H; subst; exact W.
  - walk_step H E R F.
    + eapply run_prog_wf; eauto.
    + eapply IH; [exact F|]. eapply run_prog_wf; eauto.
    + eapply IH; eauto.
    + exact W.
Qed.

(** A walk calls handlers with the event it was started for. *)
Lemma forEach_event fuel k ev : forall index l o l' t fn e,
  forEach body fuel k ev index l = (o, l', t) ->
  In (fn, e) (invoked t) -> e = ev.
Proof.
  induction fuel as [|fuel IH]; intros index l o l' t fn e H I.
  - inversion H; subst. destruct I.
  - walk_step H E R F.
    + simpl in I. rewrite (run_prog_invoked _ _ R) in I.
      destruct I as [[= _ <-]|[]]. reflexivity.
    + simpl in I. rewrite invoked_app, (run_prog_invoked _ _ R) in I.
      destruct I as [[= _ <-]|I]; [reflexivity|]. eapply IH; eauto.
    + eapply IH; eauto.
    + destruct I.
Qed.

(** A function whose slots all lie behind the walk, and which nobody
    subscribes during the walk, is not called. *)
Lemma forEach_behind fuel k ev fn : forall index l o l' t,
  forEach body fuel k ev index l = (o, l', t) ->
  (forall p, slot k p fn l -> p < index) ->
  ~ In (CalledAdd k fn) t ->
  calls_any fn t = 0.
Proof.
  induction fuel as [|fuel IH]; intros index l o l' t H B N.
  - inversion H; subst. reflexivity.
  - walk_step H E R F.
    + simpl. rewrite (run_prog_calls _ _ fn R).
      destruct (Nat.eqb_spec g fn) as [->|ne]; [|reflexivity].
      specialize (B index E). lia.
    + simpl. rewrite calls_any_app, (run_prog_calls _ _ fn R).
      destruct (Nat.eqb_spec g fn) as [->|ne].
      { specialize (B index E). lia. }
      simpl. eapply IH; [exact F| |].
      * intros p S. destruct (run_prog_new _ _ R S) as [S0|I].
        -- specialize (B p S0). lia.
        -- exfalso. apply N. simpl. right. apply in_or_app. auto.
      * intros I. apply N. simpl. right. apply in_or_app. auto.
    + eapply IH; [exact H| |exact N].
      intros p S. specialize (B p S). lia.
    + reflexivity.
Qed.

(** A function whose slot lies behind the walk, and which nobody
    unsubscribes during the walk, is not called (again). *)
Lemma forEach_passed fuel k ev fn p : forall index l o l' t,
  forEach body fuel k ev index l = (o, l', t) ->
  wf l -> slot k p fn l -> p < index ->
  ~ In (CalledDelete k fn) t ->
  calls_any fn t = 0.
Proof.
  induction fuel as [|fuel IH]; intros index l o l' t H W S L N.
  - inversion H; subst. reflexivity.
  - walk_step H E R F.
    + simpl. rewrite (run_prog_calls _ _ fn R).
      destruct (Nat.eqb_spec g fn) as [->|ne]; [|reflexivity].
      pose proof (slot_one W S E). lia.
    + simpl. rewrite calls_any_app, (run_prog_calls _ _ fn R).
      destruct (Nat.eqb_spec g fn) as [->|ne].
      { pose proof (slot_one W S E). lia. }
      simpl. eapply IH; [exact F| | | |].
      * eapply run_prog_wf; eauto.
      * eapply run_prog_keep; [exact R|exact S|].
        intros I. apply N. simpl. right. apply in_or_app. auto.
      * lia.
      * intros I. apply N. simpl. right. apply in_or_app. auto.
    + eapply IH; [exact H|exact W|exact S|lia|exact N].
    + reflexivity.
Qed.

(** A function that nobody subscribes again after it was unsubscribed
    is called at most once, and not at all if its slot lies behind the
    walk. *)
Lemma forEach_no_readd fuel k ev fn : forall index l o l' t,
  forEach body fuel k ev index l = (o, l', t) ->
  wf l -> no_readd k fn t ->
  calls_any fn t <= 1 /\
  (forall p, slot k p fn l -> p < index -> calls_any fn t = 0).
Proof.
  induction fuel as [|fuel IH]; intros index l o l' t H W N.
  - inversion H; subst. simpl. split; [lia|reflexivity].
  - assert (U : forall g p, slot k index g l ->
                slot k p fn l -> p < index -> Nat.eqb g fn = false).
    { intros g p E S L. apply Nat.eqb_neq. intros ->.
      pose proof (slot_one W S E). lia. }
    walk_step H E R F.
    + simpl. rewrite (run_prog_calls _ _ fn R). split.
      * destruct (Nat.eqb g fn); simpl; lia.
      * intros p S L. rewrite (U g p E S L). reflexivity.
    + simpl. rewrite calls_any_app, (run_prog_calls _ _ fn R). simpl.
      assert (N12 : no_readd k fn (t1 ++ t2)) by (eapply no_readd_cons, N).
      assert (N1 : no_readd k fn t1) by (eapply no_readd_app_l, N12).
      assert (N2 : no_readd k fn t2) by (eapply no_readd_app_r, N12).
      assert (W1 : wf l1) by (eapply run_prog_wf; eauto).
      destruct (in_dec Item_eq_dec (CalledDelete k fn) t1) as [D|D].
      * assert (Z : calls_any fn t2 = 0).
        { eapply forEach_behind; [exact F| |].
          - intros p S. destruct (run_prog_deleted _ R W D N1 S).
          - eapply no_readd_after; eauto. }
        rewrite Z. split.
        -- destruct (Nat.eqb g fn); simpl; lia.
        -- intros p S L. rewrite (U g p E S L). reflexivity.
      * destruct (IH _ _ _ _ _ F W1 N2) as [A B].
        assert (K : forall p, slot k p fn l -> slot k p fn l1).
        { intros p S. eapply run_prog_keep; eauto. }
        split.
        -- destruct (Nat.eqb_spec g fn) as [->|ne]; simpl; [|exact A].
           rewrite (B index (K _ E)); lia.
        -- intros p S L. rewrite (U g p E S L). simpl.
           apply (B p (K _ S)). lia.
    + destruct (IH _ _ _ _ _ H W N) as [A B]. split; [exact A|].
      intros p S L. apply (B p S). lia.
    + simpl. split; [lia|reflexivity].
Qed.

(** A function that has a slot ahead of the walk, and which nobody
    unsubscribes during the walk, is called exactly once by a walk that
    returns. *)
Lemma forEach_exactly_once fuel k ev fn p : forall index l l' t,
  forEach body fuel k ev index l = (Returned, l', t) ->
  wf l -> slot k p fn l -> index <= p ->
  ~ In (CalledDelete k fn) t ->
  calls_any fn t = 1.
Proof.
  induction fuel as [|fuel IH]; intros index l l' t H W S L N.
  - inversion H.
  - walk_step H E R F.
    + assert (N1 : ~ In (CalledDelete k fn) t1).
      { intros I. apply N. simpl. right. apply in_or_app. auto. }
      assert (N2 : ~ In (CalledDelete k fn) t2).
      { intros I. apply N. simpl. right. apply in_or_app. auto. }
      assert (W1 : wf l1) by (eapply run_prog_wf; eauto).
      assert (S1 : slot k p fn l1) by (eapply run_prog_keep; eauto).
      simpl. rewrite calls_any_app, (run_prog_calls _ _ fn R).
      destruct (Nat.eqb_spec g fn) as [->|ne].
      * pose proof (slot_one W S E) as ->.
        rewrite (forEach_passed _ _ F W1 S1); [reflexivity|lia|exact N2].
      * simpl. eapply IH; [exact F|exact W1|exact S1| |exact N2].
        destruct (Nat.eq_dec index p) as [->|]; [|lia].
        unfold slot in S. congruence.
    + eapply IH; [exact H|exact W|exact S| |exact N].
      destruct (Nat.eq_dec index p) as [->|]; [|lia].
      unfold slot in S. congruence.
    + unfold slot in S. apply nth_error_None in E.
      assert (Hp : nth_error (get k l') p <> None) by congruence.
      apply nth_error_Some in Hp. lia.
Qed.

(** A slot is filled during a walk only through a subscription. *)
Lemma forEach_new fuel k ev : forall index l o l' t k' q x,
  forEach body fuel k ev index l = (o, l', t) ->
  slot k' q x l' -> slot k' q x l \/ In (CalledAdd k' x) t.
Proof.
  induction fuel as [|fuel IH]; intros index l o l' t k' q x H S.
  - inversion H; subst; auto.
  - walk_step H E R F.
    + destruct (run_prog_new _ _ R S); simpl; auto.
    + destruct (IH _ _ _ _ _ _ _ _ F S) as [S1|I].
      * destruct (run_prog_new _ _ R S1) as [S0|I]; [auto|].
        right. simpl. right. apply in_or_app. auto.
      * right. simpl. right. apply in_or_app. auto.
    + eapply IH; eauto.
    + auto.
Qed.

(** When a walk ends in an exception, the handler that threw is the last
    one called. *)
Lemma forEach_threw fuel k ev fn : forall index l l' t,
  forEach body fuel k ev index l = (Threw fn, l', t) ->
  exists t0 t1, t = t0 ++ Invoked fn ev :: t1 /\ invoked t1 = [].
Proof.
  induction fuel as [|fuel IH]; intros index l l' t H.
  - inversion H.
  - walk_step H E R F.
    + exists [], t1. split; [reflexivity|]. eapply run_prog_invoked, R.
    + destruct (IH _ _ _ _ F) as (t0 & tb & -> & I).
      exists (Invoked g ev :: t1 ++ t0), tb. split; [|exact I].
      simpl. rewrite <- app_assoc. reflexivity.
    + eapply IH, H.
Qed.

Lemma skipn_nth {A : Type} (l : list A) i x :
  nth_error l i = Some x -> skipn i l = x :: skipn (S i) l.
Proof.
  revert i. induction l as [|a l IH]; intros [|i]; simpl; try discriminate.
  - intros [= ->]. reflexivity.
  - apply IH.
Qed.

(** A quiet body returns and leaves the set alone. *)
Lemma run_prog_quiet k p : forall l threw l' t,
  run_prog p l = (threw, l', t) -> quiet k p = true ->
  threw = false /\ get k l' = get k l.
Proof.
  induction p as [| |k0 fn next IH|k0 fn next IH]; intros l threw l' t H Q.
  - inversion H; subst; auto.
  - discriminate.
  - simpl in Q. apply andb_prop in Q. destruct Q as [Qk Q].
    prog_step H R. destruct (IH _ _ _ _ R Q) as [-> ->]. split; [reflexivity|].
    rewrite subscribe_eq. simpl. apply get_set_other.
    destruct (WSKind_eqb_spec k0 k); [discriminate|assumption].
  - simpl in Q. apply andb_prop in Q. destruct Q as [Q Qf].
    apply andb_prop in Q. destruct Q as [Qk Qt].
    prog_step H R.
    assert (Qn : quiet k (next (snd (call_unlisten (mkUnlisten k0 fn) l))) = true)
      by (destruct (snd _); assumption).
    destruct (IH _ _ _ _ _ R Qn) as [-> ->]. split; [reflexivity|].
    rewrite call_unlisten_eq. simpl. apply get_set_other.
    destruct (WSKind_eqb_spec k0 k); [discriminate|assumption].
Qed.

(** A walk over a set whose handlers are all quiet returns after one turn
    per slot and has called the elements ahead of it, each once, in
    insertion order. *)
Lemma forEach_quiet fuel k ev : forall index l o l' t,
  forEach body fuel k ev index l = (o, l', t) ->
  (forall fn, registered k fn l -> quiet k (body fn ev) = true) ->
  length (get k l) - index < fuel ->
  o = Returned /\ get k l' = get k l /\
  invoked t = map (fun fn => (fn, ev)) (JSSet.elements (skipn index (get k l))).
Proof.
  induction fuel as [|fuel IH]; intros index l o l' t H Q L.
  - lia.
  - walk_step H E R F.
    + assert (Qg : quiet k (body g ev) = true) by (eapply Q, slot_registered, E).
      destruct (run_prog_quiet k _ _ R Qg); discriminate.
    + assert (Qg : quiet k (body g ev) = true) by (eapply Q, slot_registered, E).
      destruct (run_prog_quiet k _ _ R Qg) as [_ G].
      assert (index < length (get k l)) by (apply nth_error_Some; congruence).
      destruct (IH _ _ _ _ _ F) as (-> & G2 & I).
      * intros fn. unfold registered. rewrite G. apply Q.
      * rewrite G. lia.
      * split; [reflexivity|]. split; [congruence|].
        simpl. rewrite invoked_app, (run_prog_invoked _ _ R), I, G.
        rewrite (skipn_nth _ _ E). reflexivity.
    + assert (index < length (get k l)) by (apply nth_error_Some; congruence).
      destruct (IH _ _ _ _ _ H Q) as (-> & G2 & I); [lia|].
      split; [reflexivity|]. split; [exact G2|].
      rewrite I, (skipn_nth _ _ E). reflexivity.
    + split; [reflexivity|]. split; [reflexivity|].
      apply nth_error_None in E. rewrite skipn_all2 by exact E. reflexivity.
Qed.

(** A body that subscribes nothing under [k] leaves the number of slots
    of that set as it is. *)
Lemma run_prog_adds_nothing k p : forall l threw l' t,
  run_prog p l = (threw, l', t) -> adds_nothing k p = true ->
  length (get k l') = length (get k l).
Proof.
  induction p as [| |k0 fn next IH|k0 fn next IH]; intros l threw l' t H Q.
  - inversion H; subst; auto.
  - inversion H; subst; auto.
  - simpl in Q. apply andb_prop in Q. destruct Q as [Qk Q].
    prog_step H R. rewrite (IH _ _ _ _ R Q).
    rewrite subscribe_eq. simpl. rewrite get_set_other; [reflexivity|].
    destruct (WSKind_eqb_spec k0 k); [discriminate|assumption].
  - simpl in Q. apply andb_prop in Q. destruct Q as [Qt Qf].
    prog_step H R.
    assert (Qn : adds_nothing k (next (snd (call_unlisten (mkUnlisten k0 fn) l))) = true)
      by (destruct (snd _); assumption).
    rewrite (IH _ _ _ _ _ R Qn).
    rewrite call_unlisten_eq. simpl.
    destruct (WSKind_eqb_spec k0 k) as [->|ne].
    + rewrite get_set_same. apply length_delete.
    + rewrite get_set_other by exact ne. reflexivity.
Qed.

(** If no handler subscribes under [k], a walk over that set ends within
    one turn per slot. *)
Lemma forEach_terminates fuel k ev : forall index l o l' t,
  forEach body fuel k ev index l = (o, l', t) ->
  (forall fn, adds_nothing k (body fn ev) = true) ->
  length (get k l) - index < fuel ->
  o <> Diverged.
Proof.
  induction fuel as [|fuel IH]; intros index l o l' t H Q L.
  - lia.
  - walk_step H E R F.
    + discriminate.
    + assert (index < length (get k l)) by (apply nth_error_Some; congruence).
      eapply IH; [exact F|exact Q|].
      rewrite (run_prog_adds_nothing k _ _ R (Q g)). lia.
    + assert (index < length (get k l)) by (apply nth_error_Some; congruence).
      eapply IH; [exact H|exact Q|lia].
    + discriminate.
Qed.

(** ** Deliveries *)

Lemma dispatch_forEach fuel ev l :
  dispatch body fuel ev l = forEach body fuel (ev_kind ev) ev 0 l.
Proof. unfold dispatch. destruct (ev_kind ev); reflexivity. Qed.

Lemma dispatch_wf fuel ev l o l' t :
  dispatch body fuel ev l = (o, l', t) -> wf l -> wf l'.
Proof. rewrite dispatch_forEach. apply forEach_wf. Qed.

Lemma run_wf fuel evs : forall l os l' t,
  run body fuel evs l = (os, l', t) -> wf l -> wf l'.
Proof.
  induction evs as [|ev evs IH]; intros l os l' t H W.
  - inversion H; subst; exact W.
  - run_step H D R. pose proof (dispatch_wf _ _ D W) as W1.
    destruct o1; inversion H; subst; eauto.
Qed.

(** Handlers are called with events that were delivered. *)
Lemma run_events fuel evs : forall l os l' t fn e,
  run body fuel evs l = (os, l', t) -> In (fn, e) (invoked t) -> In e evs.
Proof.
  induction evs as [|ev evs IH]; intros l os l' t fn e H I.
  - inversion H; subst. destruct I.
  - run_step H D R. rewrite dispatch_forEach in D.
    assert (Hd : In (fn, e) (invoked t1) -> e = ev) by (eapply forEach_event, D).
    destruct o1; inversion H; subst; clear H;
      try (rewrite invoked_app in I; apply in_app_or in I; destruct I as [I|I]);
      try (left; symmetry; auto; fail);
      right; eapply IH; eauto.
Qed.

(** A function that is registered nowhere, and that nobody subscribes
    while the events are delivered, is never called. *)
Lemma run_unregistered fuel fn evs : forall l os l' t,
  run body fuel evs l = (os, l', t) ->
  (forall k, ~ registered k fn l) ->
  (forall k, ~ In (CalledAdd k fn) t) ->
  calls_any fn t = 0.
Proof.
  induction evs as [|ev evs IH]; intros l os l' t H U N.
  - inversion H; subst. reflexivity.
  - run_step H D R. rewrite dispatch_forEach in D.
    assert (B : forall p, slot (ev_kind ev) p fn l -> p < 0).
    { intros p S. exfalso. eapply U, slot_registered, S. }
    assert (Hr : (forall k, ~ In (CalledAdd k fn) t1) ->
                 forall k, ~ registered k fn l1).
    { intros N1 k Rg. apply registered_slot in Rg. destruct Rg as [p S].
      destruct (forEach_new _ _ _ _ _ D S) as [S0|I].
      - eapply U, slot_registered, S0.
      - eapply N1, I. }
    assert (C : (forall k, ~ In (CalledAdd k fn) (t1 ++ t2)) ->
                calls_any fn (t1 ++ t2) = 0).
    { intros N'.
      assert (N1 : forall k, ~ In (CalledAdd k fn) t1)
        by (intros k I; apply (N' k), in_or_app; auto).
      assert (N2 : forall k, ~ In (CalledAdd k fn) t2)
        by (intros k I; apply (N' k), in_or_app; auto).
      rewrite calls_any_app, (forEach_behind _ _ D B (N1 _)).
      eapply IH; [exact R|apply Hr, N1|exact N2]. }
    destruct o1; inversion H; subst; clear H; auto.
    eapply forEach_behind; [exact D|exact B|apply N].
Qed.

(** A slot is filled while events are delivered only through a
    subscription. *)
Lemma run_new fuel evs : forall l os l' t k q x,
  run body fuel evs l = (os, l', t) ->
  slot k q x l' -> slot k q x l \/ In (CalledAdd k x) t.
Proof.
  induction evs as [|ev evs IH]; intros l os l' t k q x H S.
  - inversion H; subst; auto.
  - run_step H D R. rewrite dispatch_forEach in D.
    assert (C : slot k q x l2 -> slot k q x l \/ In (CalledAdd k x) (t1 ++ t2)).
    { intros S2. destruct (IH _ _ _ _ _ _ _ R S2) as [S1|I].
      - destruct (forEach_new _ _ _ _ _ D S1) as [S0|I]; [auto|].
        right. apply in_or_app. auto.
      - right. apply in_or_app. auto. }
    destruct o1; inversion H; subst; clear H; auto.
    eapply forEach_new; eauto.
Qed.

End Body.

(** ** Registries with the same elements *)

Import JSSetView.

Lemma ahead_all k i l : length (get k l) <= i -> ahead k i l = [].
Proof. intros L. unfold ahead. rewrite skipn_all2 by exact L. reflexivity. Qed.

Lemma ahead_empty_slot k i l :
  nth_error (get k l) i = Some None -> ahead k i l = ahead k (S i) l.
Proof. intros E. unfold ahead. rewrite (skipn_nth _ _ E). reflexivity. Qed.

Lemma ahead_slot k i l g :
  nth_error (get k l) i = Some (Some g) -> ahead k i l = g :: ahead k (S i) l.
Proof. intros E. unfold ahead. rewrite (skipn_nth _ _ E). reflexivity. Qed.

Lemma alike_subscribe k i l i' l' k0 fn :
  alike k i l i' l' ->
  alike k i (fst (subscribe k0 fn l)) i' (fst (subscribe k0 fn l')).
Proof.
  intros (W & W' & E & L & L' & A). rewrite !subscribe_eq. simpl.
  pose proof (wf_subscribe k0 fn W) as W1.
  pose proof (wf_subscribe k0 fn W') as W1'.
  rewrite subscribe_eq in W1, W1'. simpl in W1, W1'.
  pose proof (has_same _ _ fn (E k0)) as Hh.
  split; [exact W1|]. split; [exact W1'|]. split; [|split; [|split]].
  - intros k1. destruct (WSKind_eqb_spec k0 k1) as [<-|ne].
    + rewrite !get_set_same, !elements_add, Hh, (E k0). reflexivity.
    + rewrite !get_set_other by exact ne. apply E.
  - destruct (WSKind_eqb_spec k0 k) as [->|ne].
    + rewrite get_set_same. pose proof (length_add fn (get k l)). lia.
    + rewrite get_set_other by exact ne. exact L.
  - destruct (WSKind_eqb_spec k0 k) as [->|ne].
    + rewrite get_set_same. pose proof (length_add fn (get k l')). lia.
    + rewrite get_set_other by exact ne. exact L'.
  - unfold ahead in *. destruct (WSKind_eqb_spec k0 k) as [->|ne].
    + rewrite !get_set_same, !elements_skipn_add, Hh, A by assumption.
      reflexivity.
    + rewrite !get_set_other by exact ne. exact A.
Qed.

Lemma alike_unlisten k i l i' l' u :
  alike k i l i' l' ->
  alike k i (fst (call_unlisten u l)) i' (fst (call_unlisten u l')) /\
  snd (call_unlisten u l) = snd (call_unlisten u l').
Proof.
  destruct u as [k0 fn]. intros (W & W' & E & L & L' & A).
  pose proof (wf_call_unlisten (mkUnlisten k0 fn) W) as W1.
  pose proof (wf_call_unlisten (mkUnlisten k0 fn) W') as W1'.
  rewrite !call_unlisten_eq in *. simpl in *. split.
  2: { rewrite !snd_delete. apply has_same, E. }
  split; [exact W1|]. split; [exact W1'|]. split; [|split; [|split]].
  - intros k1. destruct (WSKind_eqb_spec k0 k1) as [<-|ne].
    + rewrite !get_set_same.
      pose proof (elements_skipn_delete fn (get k0 l) 0 (W k0)) as D.
      pose proof (elements_skipn_delete fn (get k0 l') 0 (W' k0)) as D'.
      simpl in D, D'. rewrite D, D', (E k0). reflexivity.
    + rewrite !get_set_other by exact ne. apply E.
  - destruct (WSKind_eqb_spec k0 k) as [->|ne].
    + rewrite get_set_same, length_delete. exact L.
    + rewrite get_set_other by exact ne. exact L.
  - destruct (WSKind_eqb_spec k0 k) as [->|ne].
    + rewrite get_set_same, length_delete. exact L'.
    + rewrite get_set_other by exact ne. exact L'.
  - unfold ahead in *. destruct (WSKind_eqb_spec k0 k) as [->|ne].
    + rewrite !get_set_same, !elements_skipn_delete, A; [reflexivity| |].
      * apply W'.
      * apply W.
    + rewrite !get_set_other by exact ne. exact A.
Qed.

Lemma run_prog_alike k i i' p : forall l l' threw l1 t,
  alike k i l i' l' ->
  run_prog p l = (threw, l1, t) ->
  exists l1', run_prog p l' = (threw, l1', t) /\ alike k i l1 i' l1'.
Proof.
  induction p as [| |k0 fn next IH|k0 fn next IH]; intros l l' threw l1 t A H.
  - inversion H; subst. exists l'. auto.
  - inversion H; subst. exists l'. auto.
  - prog_step H R.
    destruct (IH _ _ _ _ _ (@alike_subscribe k i l i' l' k0 fn A) R)
      as (l1' & R' & A').
    exists l1'. split; [|exact A'].
    rewrite run_prog_subscribe. cbv zeta. rewrite R'. reflexivity.
  - prog_step H R.
    destruct (@alike_unlisten k i l i' l' (mkUnlisten k0 fn) A) as [A1 F].
    rewrite F in R.
    destruct (IH _ _ _ _ _ _ A1 R) as (l1' & R' & A').
    exists l1'. split; [|exact A'].
    rewrite run_prog_unsubscribe. cbv zeta. rewrite R'. reflexivity.
Qed.

Section Alike.

Variable body : Handlers.

(** With nothing ahead, the walk passes the empty slots and returns. *)
Lemma walk_to_end k ev : forall n i l,
  length (get k l) - i <= n -> ahead k i l = [] ->
  forEach body (S n) k ev i l = (Returned, l, []).
Proof.
  induction n as [|n IH]; intros i l L A; simpl.
  - destruct (nth_error (get k l) i) as [x|] eqn:E; [|reflexivity].
    assert (i < length (get k l)) by (apply nth_error_Some; congruence). lia.
  - destruct (nth_error (get k l) i) as [[g|]|] eqn:E; [| |reflexivity].
    + rewrite (ahead_slot _ _ _ E) in A. discriminate.
    + rewrite (ahead_empty_slot _ _ _ E) in A.
      apply (IH (S i) l); [lia|exact A].
Qed.

(** With [g] the next element ahead, the walk passes the empty slots up
    to the slot of [g]. *)
Lemma walk_to_next k ev g rest : forall n i l,
  length (get k l) - i <= n -> ahead k i l = g :: rest ->
  exists j, i <= j /\ nth_error (get k l) j = Some (Some g) /\
            ahead k (S j) l = rest /\
            forall fuel, forEach body ((j - i) + fuel) k ev i l =
                         forEach body fuel k ev j l.
Proof.
  induction n as [|n IH]; intros i l L A.
  - rewrite ahead_all in A by lia. discriminate.
  - destruct (nth_error (get k l) i) as [[g'|]|] eqn:E.
    + rewrite (ahead_slot _ _ _ E) in A. inversion A; subst.
      exists i. repeat split; auto. intros fuel.
      rewrite Nat.sub_diag. reflexivity.
    + rewrite (ahead_empty_slot _ _ _ E) in A.
      destruct (IH (S i) l) as (j & Lj & Sj & Aj & Fj); [lia|exact A|].
      exists j. split; [lia|]. split; [exact Sj|]. split; [exact Aj|].
      intros fuel. replace (j - i + fuel) with (S (j - S i + fuel)) by lia.
      simpl. rewrite E. apply Fj.
    + apply nth_error_None in E. rewrite ahead_all in A by exact E.
      discriminate.
Qed.

(** Two walks that have the same elements ahead, over registries with
    the same elements, call the same handlers and leave registries with
    the same elements. *)
Lemma forEach_alike k ev : forall fuel i l o l1 t i' l',
  forEach body fuel k ev i l = (o, l1, t) -> o <> Diverged ->
  alike k i l i' l' ->
  exists fuel' l1',
    forEach body fuel' k ev i' l' = (o, l1', t) /\
    wf l1 /\ wf l1' /\ same_elements l1 l1'.
Proof.
  induction fuel as [|fuel IH]; intros i l o l1 t i' l' H ND A.
  - inversion H; subst. congruence.
  - pose proof A as (W & W' & E & L & L' & Ah).
    walk_step H Es R F.
    + rewrite (ahead_slot _ _ _ Es) in Ah. symmetry in Ah.
      destruct (@walk_to_next k ev g (ahead k (S i) l) (length (get k l') - i') i' l'
                  (le_n _) Ah)
        as (j & Lj & Sj & Aj & Fj).
      assert (A1 : alike k (S i) l (S j) l').
      { repeat split; auto.
        - apply Nat.le_succ_l, nth_error_Some. congruence.
        - apply Nat.le_succ_l, nth_error_Some. congruence. }
      destruct (@run_prog_alike k (S i) (S j) (body g ev) l l' _ _ _ A1 R)
        as (la' & R' & (Wa & Wa' & Ea & _)).
      exists (j - i' + 1), la'. rewrite Fj. simpl. rewrite Sj, R'. auto.
    + rewrite (ahead_slot _ _ _ Es) in Ah. symmetry in Ah.
      destruct (@walk_to_next k ev g (ahead k (S i) l) (length (get k l') - i') i' l'
                  (le_n _) Ah)
        as (j & Lj & Sj & Aj & Fj).
      assert (A1 : alike k (S i) l (S j) l').
      { repeat split; auto.
        - apply Nat.le_succ_l, nth_error_Some. congruence.
        - apply Nat.le_succ_l, nth_error_Some. congruence. }
      destruct (@run_prog_alike k (S i) (S j) (body g ev) l l' _ _ _ A1 R)
        as (la' & R' & A2).
      destruct (IH _ _ _ _ _ _ _ F ND A2) as (f2 & l1' & F' & Wf).
      exists (j - i' + S f2), l1'. rewrite Fj. simpl. rewrite Sj, R', F'. auto.
    + apply (IH _ _ _ _ _ i' l' H ND).
      rewrite (ahead_empty_slot _ _ _ Es) in Ah.
      repeat split; auto.
      apply Nat.le_succ_l, nth_error_Some. congruence.
    + apply nth_error_None in Es. rewrite ahead_all in Ah by exact Es.
      exists (S (length (get k l') - i')), l'.
      rewrite walk_to_end; auto.
Qed.

(** A walk that has ended is not changed by a larger budget. *)
Lemma forEach_more_fuel k ev : forall fuel i l o l1 t fuel',
  forEach body fuel k ev i l = (o, l1, t) -> o <> Diverged ->
  fuel <= fuel' ->
  forEach body fuel' k ev i l = (o, l1, t).
Proof.
  induction fuel as [|fuel IH]; intros i l o l1 t fuel' H ND L.
  - inversion H; subst. congruence.
  - destruct fuel' as [|fuel']; [lia|].
    walk_step H Es R F; simpl; rewrite Es; try rewrite R; auto.
    + rewrite (IH _ _ _ _ _ fuel' F ND); [reflexivity|lia].
    + apply IH; [exact H|exact ND|lia].
Qed.

Lemma run_more_fuel evs : forall fuel l os l1 t fuel',
  run body fuel evs l = (os, l1, t) -> ~ In Diverged os ->
  fuel <= fuel' ->
  run body fuel' evs l = (os, l1, t).
Proof.
  induction evs as [|ev evs IH]; intros fuel l os l1 t fuel' H ND L.
  - exact H.
  - run_step H D R. rewrite dispatch_forEach in D.
    simpl. rewrite dispatch_forEach.
    destruct o1; inversion H; subst; clear H.
    + rewrite (@forEach_more_fuel _ _ _ _ _ _ _ _ fuel' D); [|discriminate|exact L].
      rewrite (IH _ _ _ _ _ fuel' R); [reflexivity| |exact L].
      intros I. apply ND. right. exact I.
    + rewrite (@forEach_more_fuel _ _ _ _ _ _ _ _ fuel' D); [|discriminate|exact L].
      rewrite (IH _ _ _ _ _ fuel' R); [reflexivity| |exact L].
      intros I. apply ND. right. exact I.
    + exfalso. apply ND. left. reflexivity.
Qed.

(** What is delivered, and to whom, depends on the elements of the sets
    only, not on the empty slots between them. *)
Lemma same_elements_same_deliveries evs : forall fuel l l' os l1 t,
  wf l -> wf l' -> same_elements l l' ->
  run body fuel evs l = (os, l1, t) -> ~ In Diverged os ->
  exists fuel' l1',
    run body fuel' evs l' = (os, l1', t) /\ same_elements l1 l1'.
Proof.
  induction evs as [|ev evs IH]; intros fuel l l' os l1 t W W' E H ND.
  - inversion H; subst. exists 0, l'. auto.
  - run_step H D R. rewrite dispatch_forEach in D.
    assert (A : alike (ev_kind ev) 0 l 0 l').
    { repeat split; auto; try lia. apply E. }
    assert (C : o1 <> Diverged -> ~ In Diverged os0 ->
            exists fuel' l1',
              run body fuel' (ev :: evs) l' = (o1 :: os0, l1', t1 ++ t2) /\
              same_elements l2 l1').
    { intros N1 N2.
      destruct (@forEach_alike (ev_kind ev) ev fuel 0 l o1 l0 t1 0 l' D N1 A)
        as (f1 & la' & D' & Wa & Wa' & Ea).
      destruct (IH _ _ _ _ _ _ Wa Wa' Ea R N2) as (f2 & l1' & R' & E1).
      exists (Nat.max f1 f2), l1'. split; [|exact E1]. simpl.
      rewrite dispatch_forEach.
      rewrite (@forEach_more_fuel (ev_kind ev) ev f1 0 l' o1 la' t1 (Nat.max f1 f2)
                 D' N1 (Nat.le_max_l f1 f2)).
      rewrite (@run_more_fuel evs f2 la' os0 l1' t2 (Nat.max f1 f2)
                 R' N2 (Nat.le_max_r f1 f2)).
      destruct o1; congruence. }
    destruct o1; inversion H; subst; clear H.
    + apply C; [discriminate|]. intros I. apply ND. right. exact I.
    + apply C; [discriminate|]. intros I. apply ND. right. exact I.
    + exfalso. apply ND. left. reflexivity.
Qed.

End Alike.

(** ** Subscribing and unsubscribing *)

Lemma delete_last fn s :
  JSSet.has fn s = false ->
  JSSet.delete fn (s ++ [Some fn]) = (s ++ [None], true).
Proof.
  induction s as [|[e|] s IH]; simpl.
  - intros _. rewrite Nat.eqb_refl. reflexivity.
  - destruct (Nat.eqb e fn); [discriminate|].
    intros H. rewrite (IH H). reflexivity.
  - intros H. rewrite (IH H). reflexivity.
Qed.

Lemma elements_empty_slot s : JSSet.elements (s ++ [None]) = JSSet.elements s.
Proof. rewrite elements_app. simpl. apply app_nil_r. Qed.

Lemma registered_unlisten u k fn l :
  registered k fn (fst (call_unlisten u l)) -> registered k fn l.
Proof.
  destruct u as [k0 g]. unfold registered. rewrite call_unlisten_eq. simpl.
  destruct (WSKind_eqb_spec k0 k) as [->|ne].
  - rewrite get_set_same. apply In_elements_delete.
  - rewrite get_set_other by exact ne. auto.
Qed.

(** C2: calling an unsubscribe closure a second time changes nothing and
    reports [false]; it does not fail.  [unlisten] is the closure a
    subscription method returned for [fn] under [k]; [l] is the registry,
    in whatever state, at the time of the first call. *)
Theorem unsubscribe_idempotent k fn l0 l :
  wf l ->
  let unlisten := snd (subscribe k fn l0) in
  let l1 := fst (call_unlisten unlisten l) in
  call_unlisten unlisten l1 = (l1, false).
Proof.
  intros W. rewrite subscribe_eq. simpl.
  rewrite (call_unlisten_eq k fn l). simpl.
  rewrite call_unlisten_eq, get_set_same, set_set.
  assert (H : JSSet.has fn (fst (JSSet.delete fn (get k l))) = false)
    by (apply has_false, not_In_delete, W).
  rewrite (delete_absent _ _ H). reflexivity.
Qed.

(** For instance: the closure for [f1], called twice on two message
    listeners. *)
Lemma unsubscribe_idempotent_witness :
  let l := Scenario.two Message in
  let unlisten := snd (onMessage Scenario.f1 listeners0) in
  let l1 := fst (call_unlisten unlisten l) in
  wf l /\ call_unlisten unlisten l1 = (l1, false).
Proof.
  assert (W : wf (Scenario.two Message)).
  { apply wf_subscribe, wf_subscribe, wf_listeners0. }
  split; [exact W|].
  exact (@unsubscribe_idempotent Message Scenario.f1 listeners0 _ W).
Defined.

(** C7: for a function that is registered nowhere, subscribing it and
    then calling the returned closure gives back the registry: every set
    has the elements it had, in the same order (the set subscribed to has
    its old slots and one empty slot), and whatever is delivered
    afterwards is delivered as it would have been to the registry before
    the subscription.  The function is called for no event delivered
    afterwards, as long as nobody subscribes it again. *)
Theorem subscribe_unsubscribe_round_trip body fuel k fn l evs :
  wf l ->
  (forall k', ~ registered k' fn l) ->
  let '(l1, unlisten) := subscribe k fn l in
  let '(l2, found) := call_unlisten unlisten l1 in
  let '(os, l3, t) := run body fuel evs l2 in
  (forall k', ~ In (CalledAdd k' fn) t) ->
  found = true /\
  get k l2 = get k l ++ [None] /\
  same_elements l2 l /\
  calls_any fn t = 0 /\
  (~ In Diverged os ->
   exists fuel' l3', run body fuel' evs l = (os, l3', t) /\ same_elements l3 l3').
Proof.
  intros W U. rewrite subscribe_eq, call_unlisten_eq, get_set_same, set_set.
  assert (A : JSSet.has fn (get k l) = false) by (apply has_false, (U k)).
  rewrite (add_absent _ _ A), (delete_last _ _ A). simpl.
  set (l2 := set k (get k l ++ [None]) l).
  assert (E : same_elements l2 l).
  { intros k'. unfold l2. destruct (WSKind_eqb_spec k k') as [<-|ne].
    - rewrite get_set_same. apply elements_empty_slot.
    - rewrite get_set_other by exact ne. reflexivity. }
  assert (W2 : wf l2).
  { intros k'. unfold wf_set. rewrite (E k'). apply W. }
  destruct (run body fuel evs l2) as [[os l3] t] eqn:R. intros N.
  split; [reflexivity|]. split; [apply get_set_same|]. split; [exact E|].
  split.
  - eapply run_unregistered; [exact R| |exact N].
    intros k'. unfold registered. rewrite (E k'). apply U.
  - intros ND. eapply same_elements_same_deliveries; eauto.
Qed.

(** For instance: [f3] subscribed next to two message listeners and
    unsubscribed again, and two messages delivered afterwards. *)
Lemma subscribe_unsubscribe_round_trip_witness :
  wf (Scenario.two Message) /\
  (forall k', ~ registered k' Scenario.f3 (Scenario.two Message)) /\
  let l2 := fst (call_unlisten (mkUnlisten Message Scenario.f3)
                   (Scenario.three Message)) in
  let t := snd (run Scenario.observers 5
                  [Scenario.ev_msg1; Scenario.ev_msg2] l2) in
  (forall k', ~ In (CalledAdd k' Scenario.f3) t) /\
  get Message l2 = get Message (Scenario.two Message) ++ [None] /\
  calls_any Scenario.f3 t = 0.
Proof.
  assert (W : wf (Scenario.two Message)).
  { apply wf_subscribe, wf_subscribe, wf_listeners0. }
  assert (U : forall k', ~ registered k' Scenario.f3 (Scenario.two Message)).
  { intros [] H; vm_compute in H; intuition discriminate. }
  split; [exact W|]. split; [exact U|].
  pose proof (@subscribe_unsubscribe_round_trip Scenario.observers 5 Message
                Scenario.f3 (Scenario.two Message)
                [Scenario.ev_msg1; Scenario.ev_msg2] W U) as T.
  rewrite subscribe_eq, call_unlisten_eq in T. cbv zeta.
  match type of T with
  | context [run ?b ?f ?es ?l] =>
      destruct (run b f es l) as [[os l3] t] eqn:R
  end.
  vm_compute in R. inversion R; subst os l3 t; clear R.
  assert (N : forall k', ~ In (CalledAdd k' Scenario.f3)
            [Invoked 1 Scenario.ev_msg1; Invoked 2 Scenario.ev_msg1;
             Invoked 1 Scenario.ev_msg2; Invoked 2 Scenario.ev_msg2]).
  { intros k' H. simpl in H. intuition discriminate. }
  split; [exact N|]. destruct (T N) as (_ & G & _ & C & _).
  split; [exact G|exact C].
Defined.

(** ** One delivery *)

Lemma calls_any_count fn t :
  calls_any fn t = count_occ Nat.eq_dec (map fst (invoked t)) fn.
Proof.
  induction t as [|[g e|k g|k g] t IH]; simpl; auto.
  rewrite IH. destruct (Nat.eqb_spec g fn), (Nat.eq_dec g fn); simpl; congruence.
Qed.

Lemma map_fst_pair (ev : WSEvent) (fs : list Fn) :
  map fst (map (fun fn => (fn, ev)) fs) = fs.
Proof. induction fs; simpl; congruence. Qed.

(** When no handler registered for the event can throw or change the
    set that is walked, the delivery returns within one turn per slot and
    has called the elements of the set in insertion order, each of them
    exactly once, with that event. *)
Lemma quiet_delivery_returns body fuel ev l :
  wf l ->
  (forall fn, registered (ev_kind ev) fn l ->
              quiet (ev_kind ev) (body fn ev) = true) ->
  length (get (ev_kind ev) l) < fuel ->
  exists l' t,
    dispatch body fuel ev l = (Returned, l', t) /\
    get (ev_kind ev) l' = get (ev_kind ev) l /\
    invoked t = map (fun fn => (fn, ev)) (JSSet.elements (get (ev_kind ev) l)) /\
    forall fn, registered (ev_kind ev) fn l -> calls_any fn t = 1.
Proof.
  intros W Q L. rewrite dispatch_forEach.
  destruct (forEach body fuel (ev_kind ev) ev 0 l) as [[o l'] t] eqn:F.
  destruct (forEach_quiet _ _ _ _ _ F Q) as (-> & G & I); [lia|].
  simpl in I. exists l', t. repeat split; auto.
  intros fn Rg. rewrite calls_any_count, I, map_fst_pair.
  apply NoDup_count_occ'; [apply W|exact Rg].
Qed.

(** A handler whose slot the walk has not passed, and which nobody
    unsubscribes before it has been called, is called before the walk
    returns. *)
Lemma forEach_at_least_once body fuel k ev fn p : forall index l l' t,
  forEach body fuel k ev index l = (Returned, l', t) ->
  wf l -> slot k p fn l -> index <= p ->
  called_before_deleted k fn t ->
  1 <= calls_any fn t.
Proof.
  induction fuel as [|fuel IH]; intros index l l' t H W Sl L C.
  - inversion H.
  - revert C. walk_step H E R F; intros C.
    + simpl. destruct (Nat.eqb_spec g fn) as [->|ne]; [lia|]. simpl.
      rewrite calls_any_app, (run_prog_calls _ _ fn R). simpl.
      assert (N1 : ~ In (CalledDelete k fn) t1).
      { intros I. apply in_split in I. destruct I as (a & b & ->).
        specialize (C (Invoked g ev :: a) (b ++ t2)).
        simpl in C. rewrite <- app_assoc in C. specialize (C eq_refl).
        destruct (Nat.eqb_spec g fn) as [->|_]; [congruence|]. simpl in C.
        assert (Z : calls_any fn (a ++ CalledDelete k fn :: b) = 0)
          by exact (run_prog_calls _ _ fn R).
        rewrite calls_any_app in Z. lia. }
      assert (W1 : wf l1) by (eapply run_prog_wf; eauto).
      assert (S1 : slot k p fn l1) by (eapply run_prog_keep; eauto).
      eapply IH; [exact F|exact W1|exact S1| |].
      * destruct (Nat.eq_dec index p) as [->|]; [|lia].
        unfold slot in Sl. congruence.
      * intros a b ->.
        specialize (C (Invoked g ev :: t1 ++ a) b).
        simpl in C. rewrite <- app_assoc in C. specialize (C eq_refl).
        destruct (Nat.eqb_spec g fn) as [->|_]; [congruence|]. simpl in C.
        rewrite calls_any_app, (run_prog_calls _ _ fn R) in C. exact C.
    + eapply IH; [exact H|exact W|exact Sl| |exact C].
      destruct (Nat.eq_dec index p) as [->|]; [|lia].
      unfold slot in Sl. congruence.
    + unfold slot in Sl. apply nth_error_None in E.
      assert (Hp : nth_error (get k l') p <> None) by congruence.
      apply nth_error_Some in Hp. lia.
Qed.

(** C6, as the code has it: while an event is delivered, every call is
    made with that event, and a handler that is subscribed when the
    delivery begins is called at most once, unless it is unsubscribed and
    then subscribed again during the delivery, and at least once when the
    delivery returns and nobody unsubscribes the handler before it has
    been called; so exactly once when both hold.  Nothing is asked of the
    handlers beforehand: the conditions are on what happened in this
    delivery, and subscriptions made during it do no harm. *)
Theorem delivery_calls_each_listener_once body fuel ev l o l' t fn :
  wf l ->
  dispatch body fuel ev l = (o, l', t) ->
  registered (ev_kind ev) fn l ->
  (forall g e, In (g, e) (invoked t) -> e = ev) /\
  (no_readd (ev_kind ev) fn t -> calls_any fn t <= 1) /\
  (o = Returned -> called_before_deleted (ev_kind ev) fn t ->
   1 <= calls_any fn t) /\
  (o = Returned -> called_before_deleted (ev_kind ev) fn t ->
   no_readd (ev_kind ev) fn t ->
   calls_any fn t = 1 /\ count_occ Nat.eq_dec (map fst (invoked t)) fn = 1).
Proof.
  intros W D Rg. rewrite dispatch_forEach in D.
  assert (M : no_readd (ev_kind ev) fn t -> calls_any fn t <= 1).
  { intros N.
    destruct (@forEach_no_readd body fuel (ev_kind ev) ev fn 0 l o l' t D W N)
      as [A _].
    exact A. }
  assert (A : o = Returned -> called_before_deleted (ev_kind ev) fn t ->
              1 <= calls_any fn t).
  { intros -> C. apply registered_slot in Rg. destruct Rg as [p Sl].
    eapply forEach_at_least_once; [exact D|exact W|exact Sl|lia|exact C]. }
  split; [|split; [exact M|split; [exact A|]]].
  - intros g e I.
    exact (@forEach_event body fuel (ev_kind ev) ev 0 l o l' t g e D I).
  - intros O C N. specialize (M N). specialize (A O C).
    assert (E : calls_any fn t = 1) by lia.
    split; [exact E|]. rewrite <- calls_any_count. exact E.
Qed.

(** For instance: a message is delivered to [f1] and [f2]; [f1] is a
    one-shot handler that unsubscribes itself and subscribes [f3] when it
    is called.  The delivery returns, and [f1] and [f2] are each called
    exactly once, although [f1] was unsubscribed and [f3] subscribed while
    the message was delivered. *)
Lemma delivery_calls_each_listener_once_witness :
  let l := Scenario.two Message in
  let '(o, _, t) := dispatch Cases.one_shot_then_subscribes 5
                      Scenario.ev_msg1 l in
  wf l /\ o = Returned /\
  In (CalledDelete Message Scenario.f1) t /\
  In (CalledAdd Message Scenario.f3) t /\
  registered Message Scenario.f1 l /\ registered Message Scenario.f2 l /\
  calls_any Scenario.f1 t = 1 /\ calls_any Scenario.f2 t = 1.
Proof.
  assert (W : wf (Scenario.two Message)).
  { apply wf_subscribe, wf_subscribe, wf_listeners0. }
  assert (R1 : registered Message Scenario.f1 (Scenario.two Message))
    by (vm_compute; auto).
  assert (R2 : registered Message Scenario.f2 (Scenario.two Message))
    by (vm_compute; auto).
  pose proof (fun o l' t fn =>
    @delivery_calls_each_listener_once Cases.one_shot_then_subscribes 5
      Scenario.ev_msg1 (Scenario.two Message) o l' t fn W) as T.
  cbv zeta.
  destruct (dispatch Cases.one_shot_then_subscribes 5 Scenario.ev_msg1
              (Scenario.two Message)) as [[o l'] t] eqn:D.
  destruct (T o l' t Scenario.f1 eq_refl R1) as (_ & _ & _ & T1).
  destruct (T o l' t Scenario.f2 eq_refl R2) as (_ & _ & _ & T2).
  vm_compute in D. inversion D; subst o l' t; clear D.
  split; [exact W|]. split; [reflexivity|].
  split; [simpl; auto|]. split; [simpl; auto|].
  split; [exact R1|]. split; [exact R2|]. split.
  - apply T1; [reflexivity| |].
    + intros [|x [|y [|z [|u [|v a]]]]] b E; simpl in E; try discriminate;
        inversion E; subst; simpl; try lia; destruct a; discriminate.
    + intros [|x [|y [|z [|u [|v a]]]]] b E; simpl in E; try discriminate;
        inversion E; subst; simpl; try (intuition discriminate);
        destruct a; discriminate.
  - apply T2; [reflexivity| |].
    + intros [|x [|y [|z [|u [|v a]]]]] b E; simpl in E; try discriminate;
        inversion E; subst; simpl; try lia; destruct a; discriminate.
    + intros [|x [|y [|z [|u [|v a]]]]] b E; simpl in E; try discriminate;
        inversion E; subst; simpl; try (intuition discriminate);
        destruct a; discriminate.
Defined.

(** C6 fails as stated: [f3] is subscribed when the first message is
    delivered and is not called for it, because [f2] throws before its
    turn; [f1], which renews its subscription while the message is
    delivered, is called twice for it; and [f2], which is subscribed when
    the message is delivered, is not called for it, because [f1]
    unsubscribes it before its turn. *)
Lemma listener_called_zero_times_or_twice :
  (let '(o, _, t) := dispatch Scenario.throws_on_first_message 10
                       Scenario.ev_msg1 (Scenario.three Message) in
   registered Message Scenario.f3 (Scenario.three Message) /\
   o = Threw Scenario.f2 /\ calls_any Scenario.f3 t = 0) /\
  (let '(o, _, t) := dispatch Scenario.renews_once 10
                       Scenario.ev_msg1 Scenario.two_and_flag in
   registered Message Scenario.f1 Scenario.two_and_flag /\
   o = Returned /\ calls_any Scenario.f1 t = 2) /\
  (let '(o, _, t) := dispatch Cases.removes_next 10
                       Scenario.ev_msg1 (Scenario.two Message) in
   registered Message Scenario.f2 (Scenario.two Message) /\
   o = Returned /\ calls_any Scenario.f2 t = 0).
Proof. vm_compute. intuition. Qed.

(** A walk that has made [n] turns goes on from slot [index + n] on the
    registry it has reached. *)
Lemma forEach_split body k ev : forall n index l lr t,
  forEach body n k ev index l = (Diverged, lr, t) ->
  forall m,
    forEach body (n + m) k ev index l =
    let '(o, l', t') := forEach body m k ev (index + n) lr in
    (o, l', t ++ t').
Proof.
  induction n as [|n IH]; intros index l lr t H m.
  - simpl in H. inversion H; subst. rewrite Nat.add_0_r. simpl.
    destruct (forEach body m k ev index lr) as [[o l'] t']. reflexivity.
  - simpl in H. rewrite Nat.add_succ_r. simpl.
    destruct (nth_error (get k l) index) as [[g|]|] eqn:E.
    + destruct (run_prog (body g ev) l) as [[[|] l1] t1] eqn:R;
        [discriminate|].
      destruct (forEach body n k ev (S index) l1) as [[o2 l2] t2] eqn:F.
      inversion H; subst. rewrite (IH _ _ _ _ F m). simpl.
      destruct (forEach body m k ev (S (index + n)) lr) as [[o l'] t'].
      rewrite <- app_assoc. reflexivity.
    + rewrite (IH _ _ _ _ H m). reflexivity.
    + discriminate.
Qed.

(** Deliveries one after the other: a run over [evs1 ++ evs2] is the run
    over [evs1] followed by the run over [evs2] on the registry reached,
    unless a delivery of the first part never returns. *)
Lemma run_app body fuel : forall evs1 l os1 lm tm,
  run body fuel evs1 l = (os1, lm, tm) -> ~ In Diverged os1 ->
  forall evs2,
    run body fuel (evs1 ++ evs2) l =
    let '(os2, l2, t2) := run body fuel evs2 lm in
    (os1 ++ os2, l2, tm ++ t2).
Proof.
  induction evs1 as [|ev evs1 IH]; intros l os1 lm tm H N evs2.
  - inversion H; subst. simpl.
    destruct (run body fuel evs2 lm) as [[os2 l2] t2]. reflexivity.
  - simpl in H. simpl.
    destruct (dispatch body fuel ev l) as [[o1 l1] t1] eqn:D.
    destruct (run body fuel evs1 l1) as [[os l2] t2] eqn:R.
    assert (K : o1 <> Diverged -> (os1, lm, tm) = (o1 :: os, l2, t1 ++ t2)).
    { intros ne. destruct o1; try congruence. }
    destruct o1 as [|g|].
    + inversion H; subst. rewrite (IH _ _ _ _ R); [|intros I; apply N; simpl; auto].
      destruct (run body fuel evs2 lm) as [[os2 l3] t3].
      simpl. rewrite <- app_assoc. reflexivity.
    + inversion H; subst. rewrite (IH _ _ _ _ R); [|intros I; apply N; simpl; auto].
      destruct (run body fuel evs2 lm) as [[os2 l3] t3].
      simpl. rewrite <- app_assoc. reflexivity.
    + inversion H; subst. exfalso. apply N. simpl. auto.
Qed.

(** The turn of a handler that throws: when the walk for [ev] has made
    [n] turns and finds [fn] in slot [n], and the handler of [fn] throws,
    the callback ends with that exception, with the registry as the
    handler left it. *)
Lemma forEach_throws body fuel n ev l lr t fn l1 t1 :
  after_turns body n ev l = Some (lr, t) ->
  slot (ev_kind ev) n fn lr ->
  run_prog (body fn ev) lr = (true, l1, t1) ->
  n < fuel ->
  forEach body fuel (ev_kind ev) ev 0 l =
  (Threw fn, l1, t ++ Invoked fn ev :: t1).
Proof.
  intros A Sl R L. unfold after_turns in A.
  destruct (forEach body n (ev_kind ev) ev 0 l) as [[o lr'] t'] eqn:F.
  destruct o; inversion A; subst lr' t'; clear A.
  replace fuel with (n + S (fuel - S n)) by lia.
  rewrite (@forEach_split body (ev_kind ev) ev n 0 l lr t F (S (fuel - S n))).
  simpl.
  unfold slot in Sl. rewrite Sl, R. reflexivity.
Qed.

(** C1, as the code has it: when the walk of the set for [ev] has made
    [n] turns, finds [fn] in slot [n] and the handler of [fn] throws, the
    delivery of [ev] ends with that exception: [fn] is the last function
    called for [ev], and nothing that stands after it is called.  The
    events that follow are delivered as if nothing had happened, on the
    registry as the failed delivery left it; when such a delivery
    returns, every function registered for its kind at its start, and not
    unsubscribed before it was called, has been called, and exactly once
    unless it was unsubscribed and subscribed again meanwhile. *)
Theorem exception_ends_delivery body fuel n ev l lr t fn l1 t1 :
  wf l ->
  after_turns body n ev l = Some (lr, t) ->
  slot (ev_kind ev) n fn lr ->
  run_prog (body fn ev) lr = (true, l1, t1) ->
  n < fuel ->
  dispatch body fuel ev l = (Threw fn, l1, t ++ Invoked fn ev :: t1) /\
  invoked (t ++ Invoked fn ev :: t1) = invoked t ++ [(fn, ev)] /\
  (forall g, calls_any g (t ++ Invoked fn ev :: t1) =
             calls_any g t + (if Nat.eqb fn g then 1 else 0)) /\
  (forall evs os lm tm,
     run body fuel evs l1 = (os, lm, tm) ->
     run body fuel (ev :: evs) l =
     (Threw fn :: os, lm, (t ++ Invoked fn ev :: t1) ++ tm)) /\
  (forall evs os lm tm ev' l2 t2 g,
     run body fuel evs l1 = (os, lm, tm) -> ~ In Diverged os ->
     dispatch body fuel ev' lm = (Returned, l2, t2) ->
     registered (ev_kind ev') g lm ->
     called_before_deleted (ev_kind ev') g t2 ->
     run body fuel (ev :: evs ++ [ev']) l =
     (Threw fn :: os ++ [Returned], l2,
      (t ++ Invoked fn ev :: t1) ++ tm ++ t2) /\
     1 <= calls_any g t2 /\
     (no_readd (ev_kind ev') g t2 -> calls_any g t2 = 1)).
Proof.
  intros W A Sl R L.
  assert (D : dispatch body fuel ev l =
              (Threw fn, l1, t ++ Invoked fn ev :: t1)).
  { rewrite dispatch_forEach. eapply forEach_throws; eassumption. }
  assert (W1 : wf l1) by (eapply dispatch_wf; [exact D|exact W]).
  assert (Z : forall g, calls_any g t1 = 0)
    by (intros g; eapply run_prog_calls, R).
  split; [exact D|]. split; [|split; [|split]].
  - rewrite invoked_app. simpl.
    replace (invoked t1) with (@nil (Fn * WSEvent));
      [reflexivity|symmetry; eapply run_prog_invoked, R].
  - intros g. rewrite calls_any_app. simpl. rewrite Z. lia.
  - intros evs os lm tm Rn. simpl. rewrite D, Rn. reflexivity.
  - intros evs os lm tm ev' l2 t2 g Rn N D' Rg C.
    assert (Wm : wf lm) by (eapply run_wf; [exact Rn|exact W1]).
    split; [|split].
    + simpl. rewrite D. rewrite (@run_app body fuel evs l1 os lm tm Rn N [ev']).
      simpl.
      rewrite D'. rewrite app_nil_r. reflexivity.
    + rewrite dispatch_forEach in D'.
      apply registered_slot in Rg. destruct Rg as [p Sp].
      eapply forEach_at_least_once; [exact D'|exact Wm|exact Sp|lia|exact C].
    + intros Nr. rewrite dispatch_forEach in D'.
      assert (Le : calls_any g t2 <= 1).
      { destruct (@forEach_no_readd body fuel (ev_kind ev') ev' g 0 lm
                    Returned l2 t2 D' Wm Nr) as [Le _]. exact Le. }
      apply registered_slot in Rg. destruct Rg as [p Sp].
      assert (Ge : 1 <= calls_any g t2).
      { eapply forEach_at_least_once;
          [exact D'|exact Wm|exact Sp|lia|exact C]. }
      lia.
Qed.

(** For instance: three message listeners, the second of which throws on
    the first message and on no other.  The first message reaches [f1]
    and [f2] only; the socket then opens, and the second message reaches
    all three. *)
Lemma exception_ends_delivery_witness :
  let l := Scenario.three Message in
  let body := Scenario.throws_on_first_message in
  let t := [Invoked Scenario.f1 Scenario.ev_msg1] in
  wf l /\
  after_turns body 1 Scenario.ev_msg1 l = Some (l, t) /\
  slot Message 1 Scenario.f2 l /\
  run_prog (body Scenario.f2 Scenario.ev_msg1) l = (true, l, []) /\
  dispatch body 5 Scenario.ev_msg1 l =
    (Threw Scenario.f2, l, t ++ [Invoked Scenario.f2 Scenario.ev_msg1]) /\
  exists l2 t2,
    run body 5 [Scenario.ev_msg1; Scenario.ev_open; Scenario.ev_msg2] l =
      ([Threw Scenario.f2; Returned; Returned], l2,
       (t ++ [Invoked Scenario.f2 Scenario.ev_msg1]) ++ [] ++ t2) /\
    registered Message Scenario.f3 l /\
    calls_any Scenario.f3 t2 = 1.
Proof.
  cbv zeta.
  assert (W : wf (Scenario.three Message)).
  { apply wf_subscribe, wf_subscribe, wf_subscribe, wf_listeners0. }
  assert (A : after_turns Scenario.throws_on_first_message 1 Scenario.ev_msg1
                (Scenario.three Message) =
              Some (Scenario.three Message,
                    [Invoked Scenario.f1 Scenario.ev_msg1]))
    by reflexivity.
  assert (Sl : slot Message 1 Scenario.f2 (Scenario.three Message))
    by reflexivity.
  assert (R : run_prog (Scenario.throws_on_first_message Scenario.f2
                          Scenario.ev_msg1) (Scenario.three Message) =
              (true, Scenario.three Message, []))
    by reflexivity.
  assert (L : 1 < 5) by lia.
  destruct (@exception_ends_delivery Scenario.throws_on_first_message 5 1
              Scenario.ev_msg1 (Scenario.three Message)
              (Scenario.three Message) [Invoked Scenario.f1 Scenario.ev_msg1]
              Scenario.f2 (Scenario.three Message) [] W A Sl R L)
    as (D & _ & _ & _ & Later).
  assert (Rn : run Scenario.throws_on_first_message 5 [Scenario.ev_open]
                 (Scenario.three Message) =
               ([Returned], Scenario.three Message, []))
    by reflexivity.
  assert (D2 : dispatch Scenario.throws_on_first_message 5 Scenario.ev_msg2
                 (Scenario.three Message) =
               (Returned, Scenario.three Message,
                [Invoked Scenario.f1 Scenario.ev_msg2;
                 Invoked Scenario.f2 Scenario.ev_msg2;
                 Invoked Scenario.f3 Scenario.ev_msg2]))
    by reflexivity.
  assert (Rg : registered Message Scenario.f3 (Scenario.three Message))
    by (vm_compute; auto).
  assert (N : ~ In Diverged [Returned])
    by (simpl; intuition discriminate).
  assert (Q : forall a b,
            [Invoked Scenario.f1 Scenario.ev_msg2;
             Invoked Scenario.f2 Scenario.ev_msg2;
             Invoked Scenario.f3 Scenario.ev_msg2] =
            a ++ CalledDelete Message Scenario.f3 :: b -> False).
  { intros a b E.
    assert (I2 : In (CalledDelete Message Scenario.f3)
                   (a ++ CalledDelete Message Scenario.f3 :: b))
      by (apply in_or_app; simpl; auto).
    rewrite <- E in I2. simpl in I2. intuition discriminate. }
  destruct (Later [Scenario.ev_open] [Returned] (Scenario.three Message) []
              Scenario.ev_msg2 (Scenario.three Message) _ Scenario.f3
              Rn N D2 Rg) as (Rall & _ & One).
  { intros a b E. destruct (Q a b E). }
  split; [exact W|]. split; [exact A|]. split; [exact Sl|].
  split; [exact R|]. split; [exact D|].
  eexists. eexists. split; [exact Rall|]. split; [exact Rg|].
  apply One. intros a b E. destruct (Q a b E).
Defined.

(** C1 fails as stated: [f1] throws when the socket opens, and [f2],
    which listens for the same event, is not called. *)
Lemma exception_skips_remaining_listeners :
  let '(o, _, t) := dispatch Scenario.throws_on_open 10
                      Scenario.ev_open (Scenario.two Connected) in
  registered Connected Scenario.f2 (Scenario.two Connected) /\
  o = Threw Scenario.f1 /\ calls_any Scenario.f2 t = 0.
Proof. vm_compute. intuition. Qed.

(** The two facts about one function during one delivery. *)
Lemma one_function_one_delivery body fuel ev l o l' t fn :
  wf l ->
  dispatch body fuel ev l = (o, l', t) ->
  (no_readd (ev_kind ev) fn t -> calls_any fn t <= 1) /\
  (o = Returned -> registered (ev_kind ev) fn l ->
   ~ In (CalledDelete (ev_kind ev) fn) t -> calls_any fn t = 1).
Proof.
  intros W D. rewrite dispatch_forEach in D. split.
  - intros N. eapply forEach_no_readd; eauto.
  - intros -> Rg N. apply registered_slot in Rg. destruct Rg as [p S].
    eapply forEach_exactly_once; eauto. lia.
Qed.

(** C5, as the code has it: while one event is delivered, a function
    is called at most once, whoever unsubscribes it and whenever, unless
    it is subscribed again after it was unsubscribed; and when the
    delivery returns, a function that was subscribed before it began and
    that nobody unsubscribed during it has been called exactly once. *)
Theorem mutation_during_delivery body fuel ev l o l' t fn :
  wf l ->
  dispatch body fuel ev l = (o, l', t) ->
  (no_readd (ev_kind ev) fn t -> calls_any fn t <= 1) /\
  (o = Returned -> registered (ev_kind ev) fn l ->
   ~ In (CalledDelete (ev_kind ev) fn) t -> calls_any fn t = 1).
Proof.
  intros W D. rewrite dispatch_forEach in D. split.
  - intros N.
    destruct (@forEach_no_readd body fuel (ev_kind ev) ev fn 0 l o l' t D W N)
      as [A _].
    exact A.
  - intros -> Rg N. apply registered_slot in Rg. destruct Rg as [p S].
    eapply forEach_exactly_once; [exact D|exact W|exact S|lia|exact N].
Qed.

(** For instance: a one-shot listener followed by an ordinary one. *)
Lemma mutation_during_delivery_witness :
  let l := Scenario.two Message in
  let '(o, _, t) := dispatch Scenario.one_shot 5 Scenario.ev_msg1 l in
  wf l /\ o = Returned /\
  In (CalledDelete Message Scenario.f1) t /\ calls_any Scenario.f1 t <= 1 /\
  calls_any Scenario.f2 t = 1.
Proof.
  assert (W : wf (Scenario.two Message)).
  { apply wf_subscribe, wf_subscribe, wf_listeners0. }
  pose proof (fun o l' t fn =>
    @mutation_during_delivery Scenario.one_shot 5 Scenario.ev_msg1
      (Scenario.two Message) o l' t fn W) as T.
  destruct (dispatch Scenario.one_shot 5 Scenario.ev_msg1 (Scenario.two Message))
    as [[o l'] t] eqn:D.
  pose proof (T o l' t Scenario.f1 eq_refl) as [T1 _].
  pose proof (T o l' t Scenario.f2 eq_refl) as [_ T2].
  vm_compute in D. inversion D; subst o l' t; clear D.
  split; [exact W|]. split; [reflexivity|].
  split; [simpl; auto|]. split.
  - apply T1. apply no_add_no_readd. simpl. intuition discriminate.
  - apply T2; [reflexivity|vm_compute; auto|simpl; intuition discriminate].
Defined.

(** C5 fails as stated: [f1] unsubscribes itself while the first message
    is delivered, subscribes itself again, and is called a second time for
    the same message; and [f3], subscribed before the delivery began and
    never unsubscribed, is skipped because [f2] throws before its turn. *)
Lemma resubscribed_handler_called_twice :
  (let '(o, _, t) := dispatch Scenario.renews_once 10
                       Scenario.ev_msg1 Scenario.two_and_flag in
   o = Returned /\
   In (CalledDelete Message Scenario.f1) t /\
   invoked t = [(Scenario.f1, Scenario.ev_msg1); (Scenario.f2, Scenario.ev_msg1);
                (Scenario.f1, Scenario.ev_msg1)]) /\
  (let '(_, _, t) := dispatch Scenario.throws_on_first_message 10
                       Scenario.ev_msg1 (Scenario.three Message) in
   registered Message Scenario.f3 (Scenario.three Message) /\
   ~ In (CalledDelete Message Scenario.f3) t /\
   calls_any Scenario.f3 t = 0).
Proof. vm_compute. intuition discriminate. Qed.

(** If no handler subscribes under the kind of the event, the delivery
    ends: one turn of the loop per slot is enough. *)
Lemma delivery_terminates body fuel ev l o l' t :
  dispatch body fuel ev l = (o, l', t) ->
  (forall fn, adds_nothing (ev_kind ev) (body fn ev) = true) ->
  length (get (ev_kind ev) l) < fuel ->
  o <> Diverged.
Proof.
  rewrite dispatch_forEach. intros D Q L.
  eapply forEach_terminates; eauto. lia.
Qed.

(** C10: subscribing a function under a key under which it is registered
    already changes nothing: the registry stays as it is, the set holds
    the function once, and the closure returned is the one the first
    subscription returned; calling it removes the function from the set.
    When an event of that kind is delivered, the function is called at
    most once, unless it is unsubscribed and then subscribed again during
    the delivery, and exactly once if the delivery returns and nobody
    unsubscribed it.  [l0] is the registry at the first subscription, [l]
    the registry at the second. *)
Theorem double_registration body fuel k fn l0 l ev o l' t :
  wf l -> ev_kind ev = k ->
  let unlisten1 := snd (subscribe k fn l0) in
  registered k fn l ->
  let '(l2, unlisten2) := subscribe k fn l in
  dispatch body fuel ev l2 = (o, l', t) ->
  l2 = l /\ unlisten2 = unlisten1 /\
  count_occ Nat.eq_dec (JSSet.elements (get k l2)) fn = 1 /\
  ~ registered k fn (fst (call_unlisten unlisten1 l2)) /\
  ~ registered k fn (fst (call_unlisten unlisten2 l2)) /\
  (no_readd k fn t -> calls_any fn t <= 1) /\
  (o = Returned -> ~ In (CalledDelete k fn) t -> calls_any fn t = 1).
Proof.
  intros W <- u1 Rg. unfold u1. rewrite !subscribe_eq. simpl.
  rewrite add_present by (apply has_In, Rg). rewrite set_get.
  intros D. split; [reflexivity|]. split; [reflexivity|].
  split; [|split; [|split]].
  - apply NoDup_count_occ'; [apply W|exact Rg].
  - apply not_registered_unlisten, W.
  - apply not_registered_unlisten, W.
  - destruct (@one_function_one_delivery body fuel ev l o l' t fn W D) as [A B].
    split; [exact A|]. intros -> N. apply B; auto.
Qed.

(** For instance: [f3] subscribed twice next to two message listeners. *)
Lemma double_registration_witness :
  let l := Scenario.two Message in
  let '(l1, unlisten1) := onMessage Scenario.f3 l in
  let '(l2, unlisten2) := onMessage Scenario.f3 l1 in
  let '(o, _, t) := dispatch Scenario.observers 5 Scenario.ev_msg1 l2 in
  wf l1 /\ registered Message Scenario.f3 l1 /\
  l2 = l1 /\ unlisten2 = unlisten1 /\ o = Returned /\
  calls_any Scenario.f3 t = 1.
Proof.
  assert (W : wf (Scenario.three Message)).
  { apply wf_subscribe, wf_subscribe, wf_subscribe, wf_listeners0. }
  assert (Rg : registered Message Scenario.f3 (Scenario.three Message)).
  { vm_compute. auto. }
  pose proof (fun o l' t =>
    @double_registration Scenario.observers 5 Message Scenario.f3
      (Scenario.two Message) (Scenario.three Message) Scenario.ev_msg1
      o l' t W eq_refl Rg) as T.
  simpl in T. simpl.
  destruct (dispatch Scenario.observers 5 Scenario.ev_msg1 _)
    as [[o l'] t] eqn:D.
  destruct (T o l' t eq_refl) as (E & U & _ & _ & _ & _ & C).
  vm_compute in D. inversion D; subst o l' t; clear D.
  split; [exact W|]. split; [exact Rg|]. split; [exact E|].
  split; [exact U|]. split; [reflexivity|].
  apply C; [reflexivity|]. simpl. intuition discriminate.
Defined.

(** ** Several deliveries *)

Lemma before_In {A : Type} (x y : A) l : before x y l -> In x l /\ In y l.
Proof.
  intros (l1 & l2 & l3 & ->). split.
  - apply in_or_app. right. left. reflexivity.
  - apply in_or_app. right. right. apply in_or_app. right. left. reflexivity.
Qed.

Lemma before_cons {A : Type} (x y a : A) l :
  before x y (a :: l) -> (x = a /\ In y l) \/ before x y l.
Proof.
  intros ([|b l1] & l2 & l3 & E); simpl in E; inversion E; subst.
  - left. split; [reflexivity|].
    apply in_or_app. right. left. reflexivity.
  - right. exists l1, l2, l3. reflexivity.
Qed.

(** All calls made for an earlier event come before all calls made for a
    later one. *)
Lemma run_order body fuel evs : forall l os l' t A B g h p q,
  run body fuel evs l = (os, l', t) ->
  NoDup evs -> before A B evs ->
  nth_error (invoked t) p = Some (g, A) ->
  nth_error (invoked t) q = Some (h, B) ->
  p < q.
Proof.
  induction evs as [|ev evs IH]; intros l os l' t A B g h p q H ND Bf Hp Hq.
  - destruct Bf as ([|? ?] & ? & ? & E); discriminate.
  - inversion ND as [|? ? Nin ND']; subst.
    assert (HB : In B evs /\ (A = ev \/ before A B evs)).
    { destruct (before_cons Bf) as [[-> I]|Bf']; [auto|].
      split; [apply (before_In Bf')|auto]. }
    destruct HB as [InB HA].
    assert (NB : B <> ev) by congruence.
    run_step H D R. rewrite dispatch_forEach in D.
    assert (F1 : forall f e, In (f, e) (invoked t1) -> e = ev)
      by (intros f e; eapply forEach_event, D).
    assert (F2 : forall f e, In (f, e) (invoked t2) -> In e evs)
      by (intros f e; eapply run_events, R).
    assert (C : forall t', t' = t1 ++ t2 ->
                nth_error (invoked t') p = Some (g, A) ->
                nth_error (invoked t') q = Some (h, B) -> p < q).
    { intros t' -> Hp' Hq'. rewrite invoked_app in Hp', Hq'.
      destruct (Nat.lt_ge_cases q (length (invoked t1))) as [Lq|Lq].
      { rewrite nth_error_app1 in Hq' by exact Lq.
        apply nth_error_In, F1 in Hq'. contradiction. }
      rewrite nth_error_app2 in Hq' by exact Lq.
      destruct (Nat.lt_ge_cases p (length (invoked t1))) as [Lp|Lp]; [lia|].
      rewrite nth_error_app2 in Hp' by exact Lp.
      destruct HA as [->|Bf'].
      { apply nth_error_In, F2 in Hp'. contradiction. }
      pose proof (IH _ _ _ _ _ _ _ _ _ _ R ND' Bf' Hp' Hq'). lia. }
    destruct o1; inversion H; subst; clear H; eauto.
    apply nth_error_In, F1 in Hq. contradiction.
Qed.

(** C3: events are delivered one after the other, so a listener that is
    called for two events is called for them in the order in which the
    socket delivered them. *)
Theorem events_observed_in_order body fuel evs l fn A B p q :
  NoDup evs -> before A B evs ->
  let '(_, _, t) := run body fuel evs l in
  nth_error (invoked t) p = Some (fn, A) ->
  nth_error (invoked t) q = Some (fn, B) ->
  p < q.
Proof.
  intros ND Bf. destruct (run body fuel evs l) as [[os l'] t] eqn:R.
  intros Hp Hq. eapply run_order; eauto.
Qed.

(** For instance: [f1] listens for the opening and the closing of the
    socket; a message arrives in between. *)
Lemma events_observed_in_order_witness :
  let evs := [Scenario.ev_open; Scenario.ev_msg1; Scenario.ev_close] in
  let l := fst (onConnected Scenario.f1 (Scenario.two Disconnected)) in
  NoDup evs /\ before Scenario.ev_open Scenario.ev_close evs /\
  invoked (snd (run Scenario.observers 5 evs l)) =
    [(Scenario.f1, Scenario.ev_open); (Scenario.f1, Scenario.ev_close);
     (Scenario.f2, Scenario.ev_close)] /\
  0 < 1.
Proof.
  assert (ND : NoDup [Scenario.ev_open; Scenario.ev_msg1; Scenario.ev_close]).
  { repeat constructor; simpl; intuition discriminate. }
  assert (Bf : before Scenario.ev_open Scenario.ev_close
                 [Scenario.ev_open; Scenario.ev_msg1; Scenario.ev_close]).
  { exists [], [Scenario.ev_msg1], []. reflexivity. }
  split; [exact ND|]. split; [exact Bf|]. split; [reflexivity|].
  exact (@events_observed_in_order Scenario.observers 5 _
           (fst (onConnected Scenario.f1 (Scenario.two Disconnected)))
           Scenario.f1 _ _ 0 1 ND Bf eq_refl eq_refl).
Defined.

(** ** The header component *)

Lemma setup_instance fc fd m :
  snd (Header.setup fc fd m) =
  Header.mkInstance fc fd (mkUnlisten Connected fc) (mkUnlisten Disconnected fd).
Proof.
  unfold Header.setup, useAppWebSocket. destruct (socket m); reflexivity.
Qed.

(** What the setup leaves in the registry. *)
Lemma setup_listeners fc fd m :
  listeners (fst (Header.setup fc fd m)) =
  fst (onDisconnected fd (fst (onConnected fc (listeners m)))).
Proof.
  unfold Header.setup, useAppWebSocket. destruct (socket m); reflexivity.
Qed.

Lemma registered_subscribe k g l k' fn :
  registered k' fn (fst (subscribe k g l)) ->
  registered k' fn l \/ (k' = k /\ fn = g).
Proof.
  unfold registered. rewrite subscribe_eq. simpl.
  destruct (WSKind_eqb_spec k k') as [<-|ne].
  - rewrite get_set_same, In_elements_add. tauto.
  - rewrite get_set_other by exact ne. auto.
Qed.

(** The setup of a fresh instance leaves each of its two functions under
    its own key only. *)
Lemma setup_only_under fc fd m :
  fc <> fd ->
  (forall k, ~ registered k fc (listeners m)) ->
  (forall k, ~ registered k fd (listeners m)) ->
  only_under Connected fc (listeners (fst (Header.setup fc fd m))) /\
  only_under Disconnected fd (listeners (fst (Header.setup fc fd m))).
Proof.
  intros ne Uc Ud. rewrite setup_listeners. split; intros k Rg.
  - apply (registered_subscribe Disconnected) in Rg.
    destruct Rg as [Rg|[_ E]]; [|congruence].
    apply (registered_subscribe Connected) in Rg.
    destruct Rg as [Rg|[E _]]; [|exact E]. destruct (Uc k Rg).
  - apply (registered_subscribe Disconnected) in Rg.
    destruct Rg as [Rg|[E _]]; [|exact E].
    apply (registered_subscribe Connected) in Rg.
    destruct Rg as [Rg|[_ E]]; [|congruence]. destruct (Ud k Rg).
Qed.

(** That stays so whatever else is subscribed or unsubscribed and whatever
    is delivered, as long as nobody else subscribes the function. *)
Lemma only_under_subscribe k fn l k' g :
  g <> fn -> only_under k fn l -> only_under k fn (fst (subscribe k' g l)).
Proof.
  intros ne O k0 Rg. apply registered_subscribe in Rg.
  destruct Rg as [Rg|[_ E]]; [apply O, Rg|congruence].
Qed.

Lemma only_under_unlisten k fn l u :
  only_under k fn l -> only_under k fn (fst (call_unlisten u l)).
Proof. intros O k0 Rg. eapply O, registered_unlisten, Rg. Qed.

Lemma only_under_run body fuel evs k fn l os l' t :
  run body fuel evs l = (os, l', t) ->
  (forall k', ~ In (CalledAdd k' fn) t) ->
  only_under k fn l -> only_under k fn l'.
Proof.
  intros R N O k0 Rg. apply registered_slot in Rg. destruct Rg as [p S].
  destruct (run_new _ _ _ _ R S) as [S0|I].
  - eapply O, slot_registered, S0.
  - destruct (N _ I).
Qed.

(** C4: the [onUnmounted] hook of the header component removes both of its
    subscriptions, and neither of its two handlers is called for any event
    delivered afterwards.  [l] is the registry when the component is
    unmounted; the two functions are closures of this instance, which
    only its own setup subscribes: [fc] under [connected], [fd] under
    [disconnected]. *)
Theorem unmounted_handlers_never_run body fuel fc fd m l evs :
  let i := snd (Header.setup fc fd m) in
  wf l ->
  only_under Connected fc l ->
  only_under Disconnected fd l ->
  let l1 := Header.unmounted i l in
  let '(_, _, t) := run body fuel evs l1 in
  (forall k, ~ In (CalledAdd k fc) t) ->
  (forall k, ~ In (CalledAdd k fd) t) ->
  (forall k, ~ registered k fc l1) /\
  (forall k, ~ registered k fd l1) /\
  calls_any fc t = 0 /\ calls_any fd t = 0.
Proof.
  intros i W Oc Od. unfold i. rewrite setup_instance.
  unfold Header.unmounted. simpl.
  rewrite (surjective_pairing (call_unlisten (mkUnlisten Connected fc) l)).
  set (la := fst (call_unlisten (mkUnlisten Connected fc) l)).
  rewrite (surjective_pairing (call_unlisten (mkUnlisten Disconnected fd) la)).
  set (l1 := fst (call_unlisten (mkUnlisten Disconnected fd) la)).
  assert (Wa : wf la) by (apply wf_call_unlisten, W).
  assert (Uc : forall k, ~ registered k fc l1).
  { intros k Rg. apply registered_unlisten in Rg.
    pose proof (Oc k (registered_unlisten _ _ _ _ Rg)) as ->.
    exact (not_registered_unlisten Connected fc W Rg). }
  assert (Ud : forall k, ~ registered k fd l1).
  { intros k Rg.
    pose proof (Od k (registered_unlisten _ _ _ _
                        (registered_unlisten _ _ _ _ Rg))) as ->.
    exact (not_registered_unlisten Disconnected fd Wa Rg). }
  destruct (run body fuel evs l1) as [[os l'] t] eqn:R.
  intros Nc Nd. split; [exact Uc|]. split; [exact Ud|]. split.
  - eapply run_unregistered; eauto.
  - eapply run_unregistered; eauto.
Qed.

(** For instance: the first component of the application, mounted and
    unmounted; later the socket opens and closes. *)
Lemma unmounted_handlers_never_run_witness :
  let m := fst (Header.setup 10 11 module0) in
  let i := snd (Header.setup 10 11 module0) in
  let l := listeners m in
  let l1 := Header.unmounted i l in
  let t := snd (run Scenario.observers 5
                  [Scenario.ev_open; Scenario.ev_close] l1) in
  wf l /\ registered Connected 10 l /\ registered Disconnected 11 l /\
  (forall k, ~ registered k 10 l1) /\ (forall k, ~ registered k 11 l1) /\
  calls_any 10 t = 0 /\ calls_any 11 t = 0.
Proof.
  set (l := listeners (fst (Header.setup 10 11 module0))).
  assert (W : wf l).
  { unfold l. rewrite setup_listeners.
    apply (wf_subscribe Disconnected), (wf_subscribe Connected), wf_listeners0. }
  destruct (@setup_only_under 10 11 module0) as [Oc Od];
    [discriminate|intros [] H; exact H|intros [] H; exact H|].
  fold l in Oc, Od.
  pose proof (@unmounted_handlers_never_run Scenario.observers 5 10 11 module0
                l [Scenario.ev_open; Scenario.ev_close] W Oc Od) as T.
  cbv zeta in T. cbv zeta. fold l. split; [exact W|].
  split; [vm_compute; auto|]. split; [vm_compute; auto|].
  destruct (run Scenario.observers 5 [Scenario.ev_open; Scenario.ev_close]
              (Header.unmounted (snd (Header.setup 10 11 module0)) l))
    as [[os l'] t] eqn:R.
  change (snd (os, l', t)) with t. apply T.
  - vm_compute in R. inversion R; subst. intros k [].
  - vm_compute in R. inversion R; subst. intros k [].
Defined.

(** ** The composable *)

Lemma api_on_api_of s k fn m :
  api_on (api_of s) k fn m =
  (mkModule (socket m) (fst (subscribe k fn (listeners m))) (opened m),
   mkUnlisten k fn).
Proof. destruct k; reflexivity. Qed.

Lemma singleton_step body fuel a st :
  singleton st -> singleton (step body fuel a st).
Proof.
  destruct st as [m apis]. destruct a as [|i k fn|u|ev]; simpl.
  - unfold useAppWebSocket. destruct (socket m) as [s|] eqn:E; simpl.
    + rewrite E. intros (O & C & N & F). repeat split; auto.
      * destruct apis; discriminate.
      * apply Forall_app. split; [exact F|]. constructor; auto.
    + intros [O ->]. rewrite O. repeat split; auto; try discriminate.
      constructor; auto.
  - destruct (nth_error apis i) as [api|] eqn:N; [|auto].
    intros H. simpl in H. destruct (socket m) as [s|] eqn:E.
    + destruct H as (O & C & Ne & F).
      assert (api = api_of s).
      { rewrite Forall_forall in F. apply F. eapply nth_error_In, N. }
      subst api. rewrite api_on_api_of. simpl. rewrite E. auto.
    + destruct H as [_ ->]. destruct i; discriminate.
  - auto.
  - destruct (socket m) as [s|] eqn:E.
    + destruct (dispatch body fuel ev (listeners m)) as [[o l] t]. auto.
    + intros H. unfold singleton. rewrite E. exact H.
Qed.

Lemma singleton_exec body fuel acts : forall st,
  singleton st -> singleton (exec body fuel acts st).
Proof.
  induction acts as [|a acts IH]; intros st H; simpl; auto.
  apply IH, singleton_step, H.
Qed.

(** Whatever the application does, no set of the registry ever holds a
    function twice. *)
Lemma step_wf body fuel a st :
  singleton st -> wf (listeners (fst st)) ->
  wf (listeners (fst (step body fuel a st))).
Proof.
  destruct st as [m apis]. destruct a as [|i k fn|u|ev]; simpl.
  - unfold useAppWebSocket. destruct (socket m); simpl; auto.
  - destruct (nth_error apis i) as [api|] eqn:N; [|auto].
    intros H W. simpl in H. destruct (socket m) as [s|].
    + destruct H as (_ & _ & _ & F).
      assert (api = api_of s).
      { rewrite Forall_forall in F. apply F. eapply nth_error_In, N. }
      subst api. rewrite api_on_api_of. simpl. apply wf_subscribe, W.
    + destruct H as [_ ->]. destruct i; discriminate.
  - intros _ W. apply wf_call_unlisten, W.
  - intros _ W. destruct (socket m); [|exact W].
    destruct (dispatch body fuel ev (listeners m)) as [[o l] t] eqn:D.
    simpl. eapply dispatch_wf; eauto.
Qed.

Lemma exec_wf body fuel acts : forall st,
  singleton st -> wf (listeners (fst st)) ->
  wf (listeners (fst (exec body fuel acts st))).
Proof.
  induction acts as [|a acts IH]; intros st H W; simpl; auto.
  apply IH; [apply singleton_step, H|apply step_wf; assumption].
Qed.

Lemma reachable_wf body fuel acts :
  wf (listeners (fst (exec body fuel acts (module0, [])))).
Proof.
  apply exec_wf; [simpl; auto|apply wf_listeners0].
Qed.

(** C9: whatever the application does with the composable, starting from
    the freshly loaded module: [useWebSocket] has been called at most
    once; it has been called exactly when [useAppWebSocket] has been
    called at least once; every object [useAppWebSocket] handed out
    carries that one socket, and subscribing through any of them adds to
    the one module-level registry. *)
Theorem useAppWebSocket_singleton body fuel acts :
  let '(m, apis) := exec body fuel acts (module0, []) in
  opened m <= 1 /\
  (apis = [] <-> opened m = 0) /\
  (forall a, In a apis ->
     socket m = Some (api_socket a) /\ sock_conn (api_socket a) = 0 /\
     forall k fn m',
       api_on a k fn m' =
       (mkModule (socket m') (fst (subscribe k fn (listeners m'))) (opened m'),
        mkUnlisten k fn)) /\
  (forall a b, In a apis -> In b apis -> a = b).
Proof.
  pose proof (@singleton_exec body fuel acts (module0, [])) as H.
  destruct (exec body fuel acts (module0, [])) as [m apis].
  assert (H0 : singleton (module0, [])) by (simpl; auto).
  specialize (H H0). simpl in H.
  destruct (socket m) as [s|].
  - destruct H as (O & C & N & F). rewrite Forall_forall in F.
    split; [lia|]. split; [split; [contradiction|lia]|]. split.
    + intros a I. rewrite (F a I). simpl. repeat split; auto.
      intros k fn m'. apply api_on_api_of.
    + intros a b Ia Ib. rewrite (F a Ia), (F b Ib). reflexivity.
  - destruct H as [O ->]. split; [lia|]. split; [tauto|].
    split; intros; contradiction.
Qed.

(** The first call constructs the socket; a later call constructs
    nothing and returns the same members. *)
Lemma useAppWebSocket_twice m :
  socket m = None ->
  let '(m1, a1) := useAppWebSocket m in
  let '(m2, a2) := useAppWebSocket m1 in
  opened m1 = S (opened m) /\ m2 = m1 /\ a2 = a1.
Proof.
  unfold useAppWebSocket. intros ->. simpl. auto.
Qed.

(** ** The module manager *)

Module ManagerFacts.
Import ModuleManager.

Lemma name_set_state n s d :
  name (if String.eqb (name d) n then mkDescriptor (name d) (deps d) s else d)
  = name d.
Proof. destruct (String.eqb (name d) n); reflexivity. Qed.

Lemma In_set_state n s r d' :
  In d' (set_state n s r) ->
  exists d, In d r /\ name d' = name d /\
            (name d = n -> state d' = s) /\ (name d <> n -> d' = d).
Proof.
  unfold set_state. rewrite in_map_iff. intros (d & <- & I).
  exists d. split; [exact I|]. split; [apply name_set_state|].
  destruct (String.eqb_spec (name d) n); split; simpl; congruence.
Qed.

(** What [stop_each] calls and what it leaves: the modules named are
    [Stopped], the others are as they were. *)
Lemma stop_each_spec ns : forall r r' cs,
  stop_each ns r = (r', cs) ->
  cs = map CallStop ns /\
  forall d', In d' r' ->
    exists d, In d r /\ name d' = name d /\
              (In (name d) ns -> state d' = Stopped) /\
              (~ In (name d) ns -> d' = d).
Proof.
  induction ns as [|n ns IH]; intros r r' cs H; simpl in H.
  - inversion H; subst. split; [reflexivity|].
    intros d' I. exists d'. simpl. tauto.
  - destruct (stop_each ns _) as [r2 cs2] eqn:S. inversion H; subst.
    destruct (IH _ _ _ S) as [-> K]. split; [reflexivity|].
    intros d' I. destruct (K d' I) as (d1 & I1 & N1 & S1 & U1).
    apply In_set_state in I1. destruct I1 as (d2 & I2 & N2 & S2 & U2).
    apply In_set_state in I2. destruct I2 as (d & I3 & N3 & S3 & U3).
    exists d. split; [exact I3|]. split; [congruence|]. split.
    + intros [E|Ins].
      * destruct (in_dec string_dec (name d1) ns) as [Y|Y]; [auto|].
        rewrite (U1 Y). apply S2. congruence.
      * apply S1. congruence.
    + intros Nn. simpl in Nn.
      assert (name d <> n) by (intros E; apply Nn; auto).
      assert (~ In (name d) ns) by tauto.
      rewrite U1 by congruence. rewrite U2 by congruence. apply U3. assumption.
Qed.

Lemma start_each_spec start order : forall started r f r' cs,
  start_each start order started r = (Some f, r', cs) ->
  running_within started r ->
  exists n done,
    f = StartError n /\ start n = false /\
    Forall (fun s => start s = true) done /\
    cs = map CallStart done ++ CallStart n :: map CallStop (rev done ++ started) /\
    (forall d, In d r' -> state d <> Running) /\
    (forall d, In d r' -> In (name d) (rev done ++ started) -> name d <> n ->
               state d = Stopped).
Proof.
  induction order as [|n order IH]; intros started r f r' cs H Inv; simpl in H.
  - discriminate.
  - destruct (start n) eqn:St.
    + destruct (start_each start order (n :: started) _) as [[res r2] cs2] eqn:E.
      inversion H; subst; clear H.
      destruct (IH _ _ _ _ _ E) as (m & done & -> & Sm & Fd & -> & NR & SS).
      { intros d I Rn. apply In_set_state in I.
        destruct I as (d1 & I1 & N1 & S1 & U1).
        destruct (string_dec (name d1) n) as [Y|Y]; [left; congruence|].
        pose proof (U1 Y) as E1. subst d. apply In_set_state in I1.
        destruct I1 as (d2 & I2 & N2 & S2 & U2).
        assert (Y2 : name d2 <> n) by congruence.
        pose proof (U2 Y2) as E2. subst d1. right. apply Inv; assumption. }
      exists m, (n :: done). split; [reflexivity|]. split; [exact Sm|].
      split; [constructor; assumption|]. simpl.
      rewrite <- app_assoc. simpl. split; [reflexivity|]. split; assumption.
    + destruct (stop_each started _) as [r2 cs2] eqn:S.
      inversion H; subst; clear H.
      destruct (stop_each_spec _ _ S) as [-> K].
      exists n, []. split; [reflexivity|]. split; [exact St|].
      split; [constructor|]. split; [reflexivity|]. simpl.
      assert (P : forall d, In d r' ->
                (In (name d) started -> state d = Stopped) /\
                (~ In (name d) started -> state d <> Running)).
      { intros d' I. destruct (K d' I) as (d1 & I1 & N1 & S1 & U1).
        rewrite N1. split; [exact S1|]. intros Nn. rewrite (U1 Nn).
        apply In_set_state in I1. destruct I1 as (d2 & I2 & N2 & S2 & U2).
        destruct (string_dec (name d2) n) as [Y|Y].
        - rewrite (S2 Y). discriminate.
        - pose proof (U2 Y) as E2. subst d1. apply In_set_state in I2.
          destruct I2 as (d3 & I3 & N3 & S3 & U3).
          assert (Y3 : name d3 <> n) by congruence.
          pose proof (U3 Y3) as E3. subst d2.
          intros Rn. apply Nn. apply Inv; assumption. }
      split.
      * intros d I. destruct (P d I) as [A B].
        destruct (in_dec string_dec (name d) started) as [Y|Y].
        -- rewrite (A Y). discriminate.
        -- apply B, Y.
      * intros d I Ins _. apply (P d I), Ins.
Qed.

Lemma start_each_ok start order : forall started r r' cs,
  start_each start order started r = (None, r', cs) ->
  cs = map CallStart order /\ Forall (fun s => start s = true) order.
Proof.
  induction order as [|n order IH]; intros started r r' cs H; simpl in H.
  - inversion H; subst. split; [reflexivity|constructor].
  - destruct (start n) eqn:St.
    + destruct (start_each start order (n :: started) _) as [[res r2] cs2] eqn:E.
      inversion H; subst; clear H.
      destruct (IH _ _ _ _ E) as [-> F]. split; [reflexivity|].
      constructor; assumption.
    + destruct (stop_each started _). discriminate.
Qed.

(** C8: [startAll] reports success only if every [start] it called
    succeeded.  When it reports a failure, no module is [Running]: if the
    failure is the [start] of a module, [start] was called on the modules
    before it in start order and succeeded, then on the module that
    failed, and then [stop] was called on the modules started, in the
    reverse of the order in which they were started, and each of them is
    [Stopped]; with any other failure nothing was started. *)
Theorem startAll_all_or_nothing start r result r' calls :
  Forall (fun d => state d <> Running) r ->
  startAll start r = (result, r', calls) ->
  match result with
  | None =>
      exists started,
        calls = map CallStart started /\
        Forall (fun s => start s = true) started
  | Some failure =>
      Forall (fun d => state d <> Running) r' /\
      match failure with
      | StartError n =>
          start n = false /\
          exists started,
            Forall (fun s => start s = true) started /\
            calls = map CallStart started ++
                    CallStart n :: map CallStop (rev started) /\
            forall d, In d r' -> In (name d) started -> name d <> n ->
                      state d = Stopped
      | _ => calls = [] /\ r' = r
      end
  end.
Proof.
  intros NR H. unfold startAll in H.
  destruct (unknown_dependency (names r) r) as [[n x]|].
  { inversion H; subst. auto. }
  destruct (start_order (length r) r []) as [order|cycle].
  2: { inversion H; subst. auto. }
  destruct result as [failure|].
  2: { exists order. eapply start_each_ok, H. }
  destruct (@start_each_spec start order [] r failure r' calls H)
    as (n & done & -> & Sn & Fd & -> & N & S).
  { intros d I Rn. rewrite Forall_forall in NR. exfalso. exact (NR d I Rn). }
  split.
  - apply Forall_forall. exact N.
  - split; [exact Sn|]. exists done. split; [exact Fd|].
    rewrite app_nil_r. split; [reflexivity|].
    intros d I Ins Nn. apply S; auto.
    rewrite app_nil_r. apply in_rev in Ins. exact Ins.
Qed.

(** For instance: the [start] of [brain] fails after [memory] has been
    started. *)
Lemma startAll_all_or_nothing_witness :
  let start := fun n => negb (String.eqb n "brain") in
  let '(result, r', calls) := startAll start ManagerScenario.memory_and_brain in
  Forall (fun d => state d <> Running) ManagerScenario.memory_and_brain /\
  result = Some (StartError "brain") /\
  calls = [CallStart "memory"; CallStart "brain"; CallStop "memory"] /\
  state_of "memory" r' = Some Stopped /\
  Forall (fun d => state d <> Running) r'.
Proof.
  assert (NR : Forall (fun d => state d <> Running)
                 ManagerScenario.memory_and_brain).
  { repeat constructor; discriminate. }
  pose proof (fun result r' calls =>
    @startAll_all_or_nothing (fun n => negb (String.eqb n "brain"))
      ManagerScenario.memory_and_brain result r' calls NR) as T.
  cbv zeta.
  destruct (startAll _ ManagerScenario.memory_and_brain) as [[result r'] calls] eqn:E.
  specialize (T result r' calls eq_refl).
  vm_compute in E. inversion E; subst result r' calls; clear E.
  destruct T as [N _].
  split; [exact NR|]. repeat split. exact N.
Defined.

End ManagerFacts.

(** * Further properties of the registry and of the header *)

(** ** Which events a function is called with *)

Lemma calls_any_zero_invoked fn e t :
  calls_any fn t = 0 -> ~ In (fn, e) (invoked t).
Proof.
  induction t as [|[g e'|k g|k g] t IH]; simpl; auto.
  destruct (Nat.eqb_spec g fn) as [->|ne]; simpl; [discriminate|].
  intros Z [E|I]; [congruence|exact (IH Z I)].
Qed.

Lemma only_under_forEach body fuel k0 ev index k fn l o l' t :
  forEach body fuel k0 ev index l = (o, l', t) ->
  (forall k', k' <> k -> ~ In (CalledAdd k' fn) t) ->
  only_under k fn l -> only_under k fn l'.
Proof.
  intros F N O k' Rg. apply registered_slot in Rg. destruct Rg as [p S].
  destruct (@forEach_new body fuel k0 ev index l o l' t k' p fn F S) as [S0|I].
  - eapply O, slot_registered, S0.
  - destruct (WSKind_eqb_spec k' k) as [E|ne]; [exact E|].
    destruct (N k' ne I).
Qed.

(** A function that is registered under one key only, and that nobody
    subscribes under another key, is called with events of that kind
    only. *)
Theorem called_only_for_its_kind body fuel k fn evs : forall l,
  only_under k fn l ->
  let '(_, _, t) := run body fuel evs l in
  (forall k', k' <> k -> ~ In (CalledAdd k' fn) t) ->
  forall e, In (fn, e) (invoked t) -> ev_kind e = k.
Proof.
  induction evs as [|ev evs IH]; intros l O.
  - simpl. intros _ e [].
  - specialize (IH).
    destruct (run body fuel (ev :: evs) l) as [[os l'] t] eqn:H.
    intros N e I. run_step H D R. rewrite dispatch_forEach in D.
    assert (C1 : (forall k', k' <> k -> ~ In (CalledAdd k' fn) t1) ->
                 In (fn, e) (invoked t1) -> ev_kind e = k).
    { intros N1 I1. pose proof (@forEach_event body fuel (ev_kind ev) ev 0 l o1 l1 t1 fn e D I1)
        as ->.
      destruct (WSKind_eqb_spec (ev_kind ev) k) as [E|ne]; [exact E|].
      exfalso. revert I1. apply calls_any_zero_invoked.
      eapply forEach_behind; [exact D| |apply N1, ne].
      intros p S. apply slot_registered, O in S. contradiction. }
    destruct o1; inversion H; subst; clear H.
    + rewrite invoked_app in I. apply in_app_or in I. destruct I as [I|I].
      * apply C1; [|exact I]. intros k' ne A. apply (N k' ne), in_or_app. auto.
      * specialize (IH l1). rewrite R in IH. apply IH; [| |exact I].
        -- eapply only_under_forEach; [exact D| |exact O].
           intros k' ne A. apply (N k' ne), in_or_app. auto.
        -- intros k' ne A. apply (N k' ne), in_or_app. auto.
    + rewrite invoked_app in I. apply in_app_or in I. destruct I as [I|I].
      * apply C1; [|exact I]. intros k' ne A. apply (N k' ne), in_or_app. auto.
      * specialize (IH l1). rewrite R in IH. apply IH; [| |exact I].
        -- eapply only_under_forEach; [exact D| |exact O].
           intros k' ne A. apply (N k' ne), in_or_app. auto.
        -- intros k' ne A. apply (N k' ne), in_or_app. auto.
    + apply C1; assumption.
Qed.

(** For instance: a message listener, while the socket opens, delivers a
    message and closes. *)
Lemma called_only_for_its_kind_witness :
  let l := Scenario.two Message in
  let evs := [Scenario.ev_open; Scenario.ev_msg1; Scenario.ev_close] in
  only_under Message Scenario.f1 l /\
  In (Scenario.f1, Scenario.ev_msg1)
     (invoked (snd (run Scenario.observers 5 evs l))) /\
  ev_kind Scenario.ev_msg1 = Message.
Proof.
  assert (O : only_under Message Scenario.f1 (Scenario.two Message)).
  { intros [] H; vm_compute in H; intuition discriminate. }
  split; [exact O|]. split; [vm_compute; auto|].
  pose proof (@called_only_for_its_kind Scenario.observers 5 Message
                Scenario.f1
                [Scenario.ev_open; Scenario.ev_msg1; Scenario.ev_close]
                (Scenario.two Message) O) as T.
  destruct (run Scenario.observers 5 _ (Scenario.two Message))
    as [[os l'] t] eqn:R.
  vm_compute in R. inversion R; subst os l' t; clear R.
  apply T.
  - intros k' _ I. simpl in I. intuition discriminate.
  - simpl. auto.
Defined.

(** ** Subscribing and unsubscribing while an event is delivered *)

Lemma slot_after_subscribe k fn l :
  exists q, slot k q fn (fst (subscribe k fn l)) /\
            (registered k fn l \/ q = length (get k l)).
Proof.
  rewrite subscribe_eq. simpl. unfold slot. rewrite get_set_same.
  unfold JSSet.add. destruct (JSSet.has fn (get k l)) eqn:H.
  - apply has_In in H. destruct (registered_slot k fn l H) as [q S].
    exists q. split; [exact S|left; exact H].
  - exists (length (get k l)). split; [|right; reflexivity].
    rewrite nth_error_app2 by lia. rewrite Nat.sub_diag. reflexivity.
Qed.

Lemma length_get_subscribe k k0 g l :
  length (get k l) <= length (get k (fst (subscribe k0 g l))).
Proof.
  rewrite subscribe_eq. simpl. destruct (WSKind_eqb_spec k0 k) as [->|ne].
  - rewrite get_set_same. apply length_add.
  - rewrite get_set_other by exact ne. lia.
Qed.

Lemma length_get_unlisten k u l :
  length (get k (fst (call_unlisten u l))) = length (get k l).
Proof.
  destruct u as [k0 g]. rewrite call_unlisten_eq. simpl.
  destruct (WSKind_eqb_spec k0 k) as [->|ne].
  - rewrite get_set_same. apply length_delete.
  - rewrite get_set_other by exact ne. reflexivity.
Qed.

(** A function that a body subscribes and does not unsubscribe has a slot
    when the body ends; if it was not registered before, the slot lies
    behind all the slots there were. *)
Lemma run_prog_added k fn p : forall l threw l' t,
  run_prog p l = (threw, l', t) ->
  In (CalledAdd k fn) t -> ~ In (CalledDelete k fn) t ->
  exists q, slot k q fn l' /\ (registered k fn l \/ length (get k l) <= q).
Proof.
  induction p as [| |k0 g next IH|k0 g next IH]; intros l threw l' t H A N.
  - inversion H; subst. destruct A.
  - inversion H; subst. destruct A.
  - prog_step H R.
    assert (N1 : ~ In (CalledDelete k fn) t1) by (intros I; apply N; right; exact I).
    destruct (Item_eq_dec (CalledAdd k0 g) (CalledAdd k fn)) as [E|ne].
    + inversion E; subst k0 g.
      destruct (slot_after_subscribe k fn l) as (q & S & B).
      exists q. split.
      * eapply run_prog_keep; [exact R|exact S|exact N1].
      * destruct B as [B| ->]; [left; exact B|right; lia].
    + destruct A as [A|A]; [contradiction|].
      destruct (IH _ _ _ _ R A N1) as (q & S & B).
      exists q. split; [exact S|]. destruct B as [B|B].
      * apply registered_subscribe in B. destruct B as [B|[-> ->]].
        -- left. exact B.
        -- contradiction.
      * right. pose proof (length_get_subscribe k k0 g l). lia.
  - prog_step H R.
    assert (N1 : ~ In (CalledDelete k fn) t1) by (intros I; apply N; right; exact I).
    destruct A as [A|A]; [discriminate|].
    destruct (IH _ _ _ _ _ R A N1) as (q & S & B).
    exists q. split; [exact S|]. destruct B as [B|B].
    + left. eapply registered_unlisten, B.
    + right. rewrite length_get_unlisten in B. exact B.
Qed.

(** A slot is emptied during a walk only through an unsubscribe call. *)
Lemma forEach_keep body fuel k ev : forall index l o l' t k' q x,
  forEach body fuel k ev index l = (o, l', t) ->
  slot k' q x l -> ~ In (CalledDelete k' x) t -> slot k' q x l'.
Proof.
  induction fuel as [|fuel IH]; intros index l o l' t k' q x H S N.
  - inversion H; subst; exact S.
  - walk_step H E R F.
    + eapply run_prog_keep; [exact R|exact S|].
      intros I. apply N. right. exact I.
    + eapply IH; [exact F| |].
      * eapply run_prog_keep; [exact R|exact S|].
        intros I. apply N. right. apply in_or_app. auto.
      * intros I. apply N. right. apply in_or_app. auto.
    + eapply IH; eauto.
    + exact S.
Qed.

Lemma forEach_added body fuel k ev fn : forall index l l' t,
  forEach body fuel k ev index l = (Returned, l', t) ->
  wf l -> ~ registered k fn l ->
  In (CalledAdd k fn) t -> ~ In (CalledDelete k fn) t ->
  calls_any fn t = 1 /\ registered k fn l'.
Proof.
  induction fuel as [|fuel IH]; intros index l l' t H W U A N.
  - inversion H.
  - walk_step H E R F.
    + assert (Hg : Nat.eqb g fn = false).
      { apply Nat.eqb_neq. intros ->. apply U. eapply slot_registered, E. }
      assert (N1 : ~ In (CalledDelete k fn) t1).
      { intros I. apply N. right. apply in_or_app. auto. }
      assert (N2 : ~ In (CalledDelete k fn) t2).
      { intros I. apply N. right. apply in_or_app. auto. }
      assert (W1 : wf l1) by (eapply run_prog_wf; eauto).
      assert (Li : index < length (get k l)) by (apply nth_error_Some; congruence).
      simpl. rewrite Hg, calls_any_app, (run_prog_calls _ _ fn R). simpl.
      destruct (in_dec Item_eq_dec (CalledAdd k fn) t1) as [A1|A1].
      * destruct (@run_prog_added k fn (body g ev) l false l1 t1 R A1 N1)
          as (q & S & [B|B]); [contradiction|]. split.
        -- eapply forEach_exactly_once; [exact F|exact W1|exact S|lia|exact N2].
        -- eapply slot_registered, forEach_keep; [exact F|exact S|exact N2].
      * destruct A as [A|A]; [discriminate|].
        apply in_app_or in A. destruct A as [A|A]; [contradiction|].
        eapply IH; [exact F|exact W1| |exact A|exact N2].
        intros Rg. apply registered_slot in Rg. destruct Rg as [q S].
        destruct (run_prog_new _ _ R S) as [S0|I]; [|contradiction].
        apply U. eapply slot_registered, S0.
    + eapply IH; eauto.
    + destruct A.
Qed.

(** A function that is subscribed while an event is delivered, under the
    kind of that event, is called with that very event: when the delivery
    returns and nobody has unsubscribed the function, it has been called
    once, and it stays registered. *)
Theorem subscribed_during_delivery_is_called body fuel ev l l' t fn :
  wf l ->
  dispatch body fuel ev l = (Returned, l', t) ->
  ~ registered (ev_kind ev) fn l ->
  In (CalledAdd (ev_kind ev) fn) t ->
  ~ In (CalledDelete (ev_kind ev) fn) t ->
  calls_any fn t = 1 /\ registered (ev_kind ev) fn l'.
Proof.
  intros W D U A N. rewrite dispatch_forEach in D.
  eapply forEach_added; eauto.
Qed.

(** For instance: [f1] subscribes [f3] while a message is delivered to
    [f1] and [f2]. *)
Lemma subscribed_during_delivery_is_called_witness :
  let l := Scenario.two Message in
  let '(o, l', t) := dispatch Cases.subscribes_late 5 Scenario.ev_msg1 l in
  wf l /\ o = Returned /\ ~ registered Message Scenario.f3 l /\
  invoked t = [(Scenario.f1, Scenario.ev_msg1); (Scenario.f2, Scenario.ev_msg1);
               (Scenario.f3, Scenario.ev_msg1)] /\
  calls_any Scenario.f3 t = 1 /\ registered Message Scenario.f3 l'.
Proof.
  assert (W : wf (Scenario.two Message)).
  { apply wf_subscribe, wf_subscribe, wf_listeners0. }
  assert (U : ~ registered Message Scenario.f3 (Scenario.two Message)).
  { intros H. vm_compute in H. intuition discriminate. }
  pose proof (fun l' t =>
    @subscribed_during_delivery_is_called Cases.subscribes_late 5
      Scenario.ev_msg1 (Scenario.two Message) l' t Scenario.f3 W) as T.
  cbv zeta.
  destruct (dispatch Cases.subscribes_late 5 Scenario.ev_msg1
              (Scenario.two Message)) as [[o l'] t] eqn:D.
  vm_compute in D. inversion D; subst o l' t; clear D.
  specialize (T _ _ eq_refl U).
  split; [exact W|]. split; [reflexivity|]. split; [exact U|].
  split; [reflexivity|]. apply T.
  - simpl. auto.
  - simpl. intuition discriminate.
Defined.

(** A function that a body unsubscribes at some point, and does not
    subscribe after that point, has no slot when the body ends. *)
Lemma run_prog_deleted_after k fn p : forall l threw l' t a b,
  run_prog p l = (threw, l', t) -> wf l ->
  t = a ++ CalledDelete k fn :: b -> ~ In (CalledAdd k fn) b ->
  forall q, ~ slot k q fn l'.
Proof.
  induction p as [| |k0 g next IH|k0 g next IH];
    intros l threw l' t a b H W E N q.
  - inversion H; subst. destruct a; discriminate.
  - inversion H; subst. destruct a; discriminate.
  - revert E. prog_step H R. intros E. destruct a as [|x a]; [discriminate|].
    inversion E; subst.
    eapply IH; [exact R| |reflexivity|exact N]. apply wf_subscribe, W.
  - revert E. prog_step H R. intros E. destruct a as [|x a]; inversion E; subst.
    + intros S. destruct (run_prog_new _ _ R S) as [S0|A]; [|contradiction].
      apply slot_registered in S0. revert S0.
      apply not_registered_unlisten, W.
    + eapply IH; [exact R| |reflexivity|exact N]. apply wf_call_unlisten, W.
Qed.

Lemma calls_any_zero_app fn t1 t2 :
  calls_any fn (t1 ++ t2) = 0 -> calls_any fn t1 = 0 /\ calls_any fn t2 = 0.
Proof. rewrite calls_any_app. lia. Qed.

Lemma forEach_deleted_first body fuel k ev fn : forall index l o l' t a b,
  forEach body fuel k ev index l = (o, l', t) -> wf l ->
  t = a ++ CalledDelete k fn :: b ->
  calls_any fn a = 0 -> ~ In (CalledAdd k fn) b ->
  calls_any fn b = 0.
Proof.
  induction fuel as [|fuel IH]; intros index l o l' t a b H W E Z N.
  - inversion H; subst. destruct a; discriminate.
  - revert E. walk_step H Es R F; intros E.
    + destruct a as [|x a]; [discriminate|]. inversion E; subst.
      pose proof (run_prog_calls _ _ fn R) as C.
      change (a ++ CalledDelete k fn :: b) with (a ++ [CalledDelete k fn] ++ b) in C.
      apply calls_any_zero_app in C. destruct C as [_ C].
      apply calls_any_zero_app in C. tauto.
    + destruct a as [|x a]; [discriminate|]. inversion E as [[Ex Et]]; subst x.
      simpl in Z.
      assert (Za : calls_any fn a = 0) by lia.
      assert (W1 : wf l1) by (eapply run_prog_wf; eauto).
      symmetry in Et. apply app_eq_app in Et.
      destruct Et as (m & [[E1 E2]|[E1 E2]]).
      * (* the call lies in the rest of the walk *)
        subst a. apply calls_any_zero_app in Za. destruct Za as [_ Zm].
        eapply (IH _ _ _ _ _ m b F W1); [exact E2|exact Zm|exact N].
      * (* the call lies in the body of [g] *)
        destruct m as [|y m].
        -- simpl in E2.
           eapply (IH _ _ _ _ _ [] b F W1);
             [symmetry; exact E2|reflexivity|exact N].
        -- inversion E2; subst y b.
           assert (N1 : ~ In (CalledAdd k fn) m).
           { intros I. apply N, in_or_app. auto. }
           assert (N2 : ~ In (CalledAdd k fn) t2).
           { intros I. apply N, in_or_app. auto. }
           rewrite calls_any_app.
           pose proof (run_prog_calls _ _ fn R) as C. rewrite E1 in C.
           change (a ++ CalledDelete k fn :: m)
             with (a ++ [CalledDelete k fn] ++ m) in C.
           apply calls_any_zero_app in C. destruct C as [_ C].
           apply calls_any_zero_app in C. destruct C as [_ C]. rewrite C.
           simpl. eapply forEach_behind; [exact F| |exact N2].
           intros p S. exfalso.
           exact (@run_prog_deleted_after k fn (body g ev) l false l1 t1 a m
                    R W E1 N1 p S).
    + eapply IH; eauto.
    + destruct a; discriminate.
Qed.

(** Unsubscribing takes effect at once, also while an event is delivered:
    a function that is unsubscribed before its turn has come, and that
    nobody subscribes after that, is not called with that event. *)
Theorem unsubscribed_before_its_turn_is_not_called body fuel ev l o l' a b fn :
  wf l ->
  dispatch body fuel ev l = (o, l', a ++ CalledDelete (ev_kind ev) fn :: b) ->
  calls_any fn a = 0 ->
  ~ In (CalledAdd (ev_kind ev) fn) b ->
  calls_any fn (a ++ CalledDelete (ev_kind ev) fn :: b) = 0.
Proof.
  intros W D Z N. rewrite dispatch_forEach in D.
  rewrite calls_any_app, Z. simpl.
  eapply forEach_deleted_first; [exact D|exact W|reflexivity|exact Z|exact N].
Qed.

(** For instance: [f1] unsubscribes [f2] while a message is delivered to
    both. *)
Lemma unsubscribed_before_its_turn_is_not_called_witness :
  let l := Scenario.two Message in
  let a := [Invoked Scenario.f1 Scenario.ev_msg1] in
  exists l',
    wf l /\ registered Message Scenario.f2 l /\
    dispatch Cases.removes_next 5 Scenario.ev_msg1 l =
      (Returned, l', a ++ CalledDelete Message Scenario.f2 :: []) /\
    calls_any Scenario.f2 (a ++ CalledDelete Message Scenario.f2 :: []) = 0.
Proof.
  assert (W : wf (Scenario.two Message)).
  { apply wf_subscribe, wf_subscribe, wf_listeners0. }
  eexists. split; [exact W|]. split; [vm_compute; auto|].
  assert (D : dispatch Cases.removes_next 5 Scenario.ev_msg1 (Scenario.two Message)
              = (Returned, _, [Invoked Scenario.f1 Scenario.ev_msg1] ++
                              CalledDelete Message Scenario.f2 :: []))
    by (vm_compute; reflexivity).
  split; [exact D|].
  apply (@unsubscribed_before_its_turn_is_not_called Cases.removes_next 5
           Scenario.ev_msg1 (Scenario.two Message) Returned _
           [Invoked Scenario.f1 Scenario.ev_msg1] [] Scenario.f2 W D).
  - reflexivity.
  - intros [].
Defined.

(** ** Deliveries that end and deliveries that do not *)

Lemma run_prog_renews k fn l :
  wf l ->
  exists l', run_prog (renews k fn) l =
             (false, l', [CalledDelete k fn; CalledAdd k fn]) /\
             wf l' /\ slot k (length (get k l)) fn l'.
Proof.
  intros W. unfold renews. rewrite run_prog_unsubscribe. cbv zeta.
  rewrite run_prog_subscribe. cbv zeta. simpl.
  eexists. split; [reflexivity|]. split.
  - apply wf_subscribe, wf_call_unlisten, W.
  - destruct (slot_after_subscribe k fn
                (fst (call_unlisten (mkUnlisten k fn) l))) as (q & S & B).
    destruct B as [B| ->].
    + destruct (not_registered_unlisten k fn W B).
    + rewrite length_get_unlisten in S. exact S.
Qed.

Lemma forEach_renews body fuel k ev fn : forall index l p,
  body fn ev = renews k fn ->
  (forall g, g <> fn -> quiet k (body g ev) = true) ->
  wf l -> slot k p fn l -> index <= p ->
  fst (fst (forEach body fuel k ev index l)) = Diverged.
Proof.
  induction fuel as [|fuel IH]; intros index l p B Q W Sl L; [reflexivity|].
  simpl. destruct (nth_error (get k l) index) as [[g|]|] eqn:E.
  - assert (Li : index < length (get k l)) by (apply nth_error_Some; congruence).
    destruct (Nat.eq_dec g fn) as [->|ne].
    + rewrite B. destruct (run_prog_renews k fn W) as (l1 & -> & W1 & S1).
      pose proof (IH (S index) l1 _ B Q W1 S1 Li) as D.
      destruct (forEach body fuel k ev (S index) l1) as [[o l2] t2].
      exact D.
    + destruct (run_prog (body g ev) l) as [[threw l1] t1] eqn:R.
      destruct (run_prog_quiet k _ _ R (Q g ne)) as [-> G].
      assert (W1 : wf l1) by (eapply run_prog_wf; eauto).
      assert (S1 : slot k p fn l1) by (unfold slot; rewrite G; exact Sl).
      assert (Lp : S index <= p).
      { destruct (Nat.eq_dec index p) as [->|]; [|lia].
        unfold slot in Sl. congruence. }
      pose proof (IH (S index) l1 p B Q W1 S1 Lp) as D.
      destruct (forEach body fuel k ev (S index) l1) as [[o l2] t2].
      exact D.
  - apply (IH (S index) l p B Q W Sl).
    destruct (Nat.eq_dec index p) as [->|]; [|lia].
    unfold slot in Sl. congruence.
  - apply nth_error_None in E.
    assert (Hp : nth_error (get k l) p <> None) by (unfold slot in Sl; congruence).
    apply nth_error_Some in Hp. lia.
Qed.

(** A handler that renews its own subscription each time it is called
    moves itself to the end of the set that is being walked, so the walk
    never comes to an end: whatever the number of turns allowed, the
    delivery has not returned. *)
Theorem self_renewing_handler_never_returns body fuel ev l fn :
  wf l ->
  registered (ev_kind ev) fn l ->
  body fn ev = renews (ev_kind ev) fn ->
  (forall g, g <> fn -> quiet (ev_kind ev) (body g ev) = true) ->
  fst (fst (dispatch body fuel ev l)) = Diverged.
Proof.
  intros W Rg B Q. rewrite dispatch_forEach.
  apply registered_slot in Rg. destruct Rg as [p S].
  eapply forEach_renews; eauto. lia.
Qed.

(** For instance: the second of two message listeners renews itself. *)
Lemma self_renewing_handler_never_returns_witness :
  wf (Scenario.two Message) /\
  registered Message Scenario.f2 (Scenario.two Message) /\
  fst (fst (dispatch Cases.renews_always 1000 Scenario.ev_msg1
              (Scenario.two Message))) = Diverged.
Proof.
  assert (W : wf (Scenario.two Message)).
  { apply wf_subscribe, wf_subscribe, wf_listeners0. }
  assert (Rg : registered Message Scenario.f2 (Scenario.two Message)).
  { vm_compute. auto. }
  split; [exact W|]. split; [exact Rg|].
  apply (@self_renewing_handler_never_returns Cases.renews_always 1000
           Scenario.ev_msg1 (Scenario.two Message) Scenario.f2 W Rg).
  - reflexivity.
  - intros g ne. unfold Cases.renews_always.
    destruct (Nat.eqb_spec g Scenario.f2) as [E|_]; [contradiction|reflexivity].
Defined.

(** For instance: a one-shot listener and an ordinary one. *)
Lemma delivery_terminates_witness :
  length (get Message (Scenario.two Message)) < 3 /\
  fst (fst (dispatch Scenario.one_shot 3 Scenario.ev_msg1
              (Scenario.two Message))) <> Diverged.
Proof.
  split; [vm_compute; lia|].
  destruct (dispatch Scenario.one_shot 3 Scenario.ev_msg1 (Scenario.two Message))
    as [[o l'] t] eqn:D.
  apply (@delivery_terminates Scenario.one_shot 3 Scenario.ev_msg1
           (Scenario.two Message) o l' t D).
  - intros fn. unfold Scenario.one_shot.
    destruct (Nat.eqb fn Scenario.f1); reflexivity.
  - vm_compute. lia.
Defined.

(** ** What unsubscribing leaves alone *)

Lemma registered_unlisten_other u k g l :
  mkUnlisten k g <> u ->
  registered k g l -> registered k g (fst (call_unlisten u l)).
Proof.
  destruct u as [k0 fn]. intros ne Rg. apply registered_slot in Rg.
  destruct Rg as [p S]. eapply slot_registered.
  apply slot_unlisten_keep; [|exact S]. congruence.
Qed.

Lemma unsubscribe_removes_step k fn l :
  wf l ->
  JSSet.elements (get k (fst (call_unlisten (mkUnlisten k fn) l))) =
    remove Nat.eq_dec fn (JSSet.elements (get k l)) /\
  forall k', k' <> k ->
    get k' (fst (call_unlisten (mkUnlisten k fn) l)) = get k' l.
Proof.
  intros W. rewrite call_unlisten_eq. simpl. split.
  - rewrite get_set_same.
    exact (JSSetView.elements_skipn_delete fn (get k l) 0 (W k)).
  - intros k' ne. apply get_set_other. congruence.
Qed.

(** Calling the closure returned for [fn] under [k] removes [fn] from the
    set under [k] and nothing else: the other functions stay in that set
    in the order they had, and the sets under the other keys are not
    touched, also when they hold [fn]. *)
Theorem unsubscribe_removes_only_that_function k fn l0 l :
  wf l ->
  let unlisten := snd (subscribe k fn l0) in
  let l1 := fst (call_unlisten unlisten l) in
  JSSet.elements (get k l1) = remove Nat.eq_dec fn (JSSet.elements (get k l)) /\
  forall k', k' <> k -> get k' l1 = get k' l.
Proof.
  intros W. rewrite subscribe_eq. simpl. rewrite call_unlisten_eq. simpl.
  split.
  - rewrite get_set_same.
    exact (JSSetView.elements_skipn_delete fn (get k l) 0 (W k)).
  - intros k' ne. apply get_set_other. congruence.
Qed.

(** For instance: [f1] listens under two keys and is unsubscribed from
    one. *)
Lemma unsubscribe_removes_only_that_function_witness :
  let l := Cases.both_kinds in
  let l1 := fst (call_unlisten (snd (subscribe Message Scenario.f1 listeners0)) l) in
  wf l /\ ~ registered Message Scenario.f1 l1 /\
  registered Connected Scenario.f1 l1.
Proof.
  assert (W : wf Cases.both_kinds).
  { apply (wf_subscribe Message), (wf_subscribe Connected), wf_listeners0. }
  pose proof (@unsubscribe_removes_only_that_function Message Scenario.f1
                listeners0 Cases.both_kinds W) as T.
  cbv zeta in T. destruct T as [E O]. cbv zeta.
  split; [exact W|]. split.
  - unfold registered. rewrite E. apply remove_In.
  - unfold registered. rewrite (O Connected) by discriminate.
    vm_compute. auto.
Defined.

(** ** The header component, mounted and unmounted *)

(** Unmounting one header leaves the subscriptions of everybody else as
    they are: every other function is registered afterwards exactly
    where it was registered before. *)
Theorem unmounting_leaves_other_subscriptions fc fd m l k g :
  let i := snd (Header.setup fc fd m) in
  g <> fc -> g <> fd ->
  (registered k g (Header.unmounted i l) <-> registered k g l).
Proof.
  intros i nc nd. unfold i. rewrite setup_instance.
  unfold Header.unmounted. simpl.
  rewrite (surjective_pairing (call_unlisten (mkUnlisten Connected fc) l)).
  rewrite (surjective_pairing
             (call_unlisten (mkUnlisten Disconnected fd) (fst _))).
  split.
  - intros Rg. eapply registered_unlisten, registered_unlisten, Rg.
  - intros Rg. apply registered_unlisten_other; [congruence|].
    apply registered_unlisten_other; [congruence|exact Rg].
Qed.

(** For instance: two headers are mounted and the first is unmounted. *)
Lemma unmounting_leaves_other_subscriptions_witness :
  let '(m1, i1) := Header.setup 10 11 module0 in
  let '(m2, i2) := Header.setup 20 21 m1 in
  let l := Header.unmounted i1 (listeners m2) in
  registered Connected 20 l /\ registered Disconnected 21 l /\
  ~ registered Connected 10 l /\ ~ registered Disconnected 11 l.
Proof.
  pose proof (fun k g =>
    @unmounting_leaves_other_subscriptions 10 11 module0
      (listeners (fst (Header.setup 20 21 (fst (Header.setup 10 11 module0)))))
      k g) as T.
  cbv zeta in T. simpl.
  split; [apply (T Connected 20); [discriminate|discriminate|vm_compute; auto]|].
  split; [apply (T Disconnected 21); [discriminate|discriminate|vm_compute; auto]|].
  split; intros H; vm_compute in H; intuition discriminate.
Defined.

Lemma same_elements_trans l1 l2 l3 :
  same_elements l1 l2 -> same_elements l2 l3 -> same_elements l1 l3.
Proof. intros A B k. rewrite (A k). apply B. Qed.

Lemma round_trip_elements k fn l :
  ~ registered k fn l ->
  same_elements (fst (call_unlisten (mkUnlisten k fn) (fst (subscribe k fn l)))) l.
Proof.
  intros U. rewrite subscribe_eq, call_unlisten_eq. simpl.
  rewrite get_set_same, set_set.
  assert (A : JSSet.has fn (get k l) = false) by (apply has_false, U).
  rewrite (add_absent _ _ A), (delete_last _ _ A). simpl.
  intros k'. destruct (WSKind_eqb_spec k k') as [<-|ne].
  - rewrite get_set_same. apply elements_empty_slot.
  - rewrite get_set_other by exact ne. reflexivity.
Qed.

(** Mounting a header whose two functions are new and unmounting it again
    gives back the registry: every set has the elements it had, in the
    same order, whatever else is registered. *)
Theorem mount_unmount_round_trip fc fd m :
  wf (listeners m) ->
  ~ registered Connected fc (listeners m) ->
  ~ registered Disconnected fd (listeners m) ->
  let '(m1, i) := Header.setup fc fd m in
  registered Connected fc (listeners m1) /\
  registered Disconnected fd (listeners m1) /\
  same_elements (Header.unmounted i (listeners m1)) (listeners m).
Proof.
  intros W Uc Ud.
  pose proof (setup_instance fc fd m) as Ei.
  pose proof (setup_listeners fc fd m) as El.
  destruct (Header.setup fc fd m) as [m1 i]. simpl in Ei. subst i.
  assert (El' : listeners m1 =
                fst (subscribe Disconnected fd
                       (fst (subscribe Connected fc (listeners m)))))
    by exact El.
  rewrite El'. clear El El'.
  change (onDisconnected fd) with (subscribe Disconnected fd).
  change (onConnected fc) with (subscribe Connected fc).
  set (la := fst (subscribe Connected fc (listeners m))).
  set (lb := fst (subscribe Disconnected fd la)).
  assert (Wb : wf lb) by (apply wf_subscribe, wf_subscribe, W).
  assert (Gb : forall k,
            JSSet.elements (get k lb) =
            JSSet.elements (get k (listeners m)) ++
            match k with
            | Connected => [fc]
            | Disconnected => [fd]
            | _ => []
            end).
  { assert (Hc : JSSet.has fc (connected (listeners m)) = false)
      by (apply has_false, Uc).
    assert (Hd : JSSet.has fd (disconnected (listeners m)) = false)
      by (apply has_false, Ud).
    intros k. unfold lb, la. rewrite !subscribe_eq.
    destruct k; simpl; rewrite ?JSSetView.elements_add, ?Hc, ?Hd, ?app_nil_r;
      reflexivity. }
  clearbody lb. clear la.
  cbv beta iota delta [Header.unmounted Header.unlistenOnConnected
                        Header.unlistenOnDisconnected].
  rewrite (surjective_pairing (call_unlisten (mkUnlisten Connected fc) lb)).
  set (lc := fst (call_unlisten (mkUnlisten Connected fc) lb)).
  rewrite (surjective_pairing (call_unlisten (mkUnlisten Disconnected fd) lc)).
  assert (Wc : wf lc) by (apply wf_call_unlisten, Wb).
  split; [|split].
  - unfold registered. rewrite (Gb Connected). apply in_or_app. simpl. auto.
  - unfold registered. rewrite (Gb Disconnected). apply in_or_app. simpl. auto.
  - destruct (@unsubscribe_removes_step Connected fc lb Wb) as [E1 O1].
    destruct (@unsubscribe_removes_step Disconnected fd lc Wc) as [E2 O2].
    fold lc in E1, O1.
    intros k. destruct k.
    + rewrite (O2 Connected) by discriminate.
      rewrite E1, (Gb Connected), remove_app. simpl.
      destruct (Nat.eq_dec fc fc); [|congruence].
      rewrite app_nil_r. apply notin_remove, Uc.
    + rewrite E2, (O1 Disconnected) by discriminate.
      rewrite (Gb Disconnected), remove_app. simpl.
      destruct (Nat.eq_dec fd fd); [|congruence].
      rewrite app_nil_r. apply notin_remove, Ud.
    + rewrite (O2 Error), (O1 Error) by discriminate.
      rewrite (Gb Error). apply app_nil_r.
    + rewrite (O2 Message), (O1 Message) by discriminate.
      rewrite (Gb Message). apply app_nil_r.
Qed.

(** For instance: the first header of the application. *)
Lemma mount_unmount_round_trip_witness :
  let '(m1, i) := Header.setup 10 11 module0 in
  wf (listeners module0) /\
  registered Connected 10 (listeners m1) /\
  same_elements (Header.unmounted i (listeners m1)) (listeners module0).
Proof.
  pose proof (@mount_unmount_round_trip 10 11 module0 wf_listeners0) as T.
  destruct (Header.setup 10 11 module0) as [m1 i].
  destruct T as (A & _ & C); [intros []|intros []|].
  split; [exact wf_listeners0|]. split; [exact A|exact C].
Defined.

(** ** What the header shows *)

Lemma untouched_app fn t1 t2 :
  untouched fn (t1 ++ t2) -> untouched fn t1 /\ untouched fn t2.
Proof.
  intros U. split; intros k; destruct (U k) as [A D];
    split; intros I; [apply A|apply D|apply A|apply D]; apply in_or_app; auto.
Qed.

Lemma isConnected_app i v t1 t2 :
  Indicator.isConnected i v (t1 ++ t2) =
  Indicator.isConnected i (Indicator.isConnected i v t1) t2.
Proof.
  revert v. induction t1 as [|[g e|k g|k g] t1 IH]; intros v; simpl; auto.
Qed.

(** Calls of the function subscribed with [onConnected], and none of the
    other one, leave [true]. *)
Lemma isConnected_set i t : forall v,
  calls_any (Header.fnDisconnected i) t = 0 ->
  Indicator.isConnected i v t =
  if Nat.eqb (calls_any (Header.fnConnected i) t) 0 then v else true.
Proof.
  induction t as [|[g e|k g|k g] t IH]; intros v Z; simpl in *; auto.
  destruct (Nat.eqb_spec g (Header.fnDisconnected i)) as [->|nd]; [discriminate|].
  destruct (Nat.eqb_spec g (Header.fnConnected i)) as [->|nc]; simpl.
  - rewrite (IH true Z). destruct (Nat.eqb _ 0); reflexivity.
  - apply IH, Z.
Qed.

(** Calls of the function subscribed with [onDisconnected], and none of
    the other one, leave [false]. *)
Lemma isConnected_reset i t : forall v,
  calls_any (Header.fnConnected i) t = 0 ->
  Indicator.isConnected i v t =
  if Nat.eqb (calls_any (Header.fnDisconnected i) t) 0 then v else false.
Proof.
  induction t as [|[g e|k g|k g] t IH]; intros v Z; simpl in *; auto.
  destruct (Nat.eqb_spec g (Header.fnConnected i)) as [->|nc]; [discriminate|].
  destruct (Nat.eqb_spec g (Header.fnDisconnected i)) as [->|nd]; simpl.
  - rewrite (IH false Z). destruct (Nat.eqb _ 0); reflexivity.
  - apply IH, Z.
Qed.

(** One delivery that returns, to a registry in which one function is
    registered under [k] only and is left alone: the function is called
    once if the event is of kind [k], and not at all otherwise, and it is
    registered as before. *)
Lemma dispatch_untouched body fuel ev k fn l l1 t1 :
  wf l -> registered k fn l -> only_under k fn l ->
  dispatch body fuel ev l = (Returned, l1, t1) ->
  untouched fn t1 ->
  calls_any fn t1 = (if WSKind_eqb (ev_kind ev) k then 1 else 0) /\
  wf l1 /\ registered k fn l1 /\ only_under k fn l1.
Proof.
  intros W Rg O D U. pose proof (dispatch_wf _ _ _ D W) as W1.
  rewrite dispatch_forEach in D.
  apply registered_slot in Rg. destruct Rg as [p Sl].
  split; [|split; [exact W1|split]].
  - destruct (WSKind_eqb_spec (ev_kind ev) k) as [E|ne].
    + subst k. eapply forEach_exactly_once; [exact D|exact W|exact Sl|lia|].
      apply (U (ev_kind ev)).
    + eapply forEach_behind; [exact D| |apply (U (ev_kind ev))].
      intros q Sq. apply slot_registered, O in Sq. contradiction.
  - eapply slot_registered, forEach_keep; [exact D|exact Sl|apply (U k)].
  - eapply only_under_forEach; [exact D| |exact O].
    intros k' _. apply (U k').
Qed.

Lemma header_follows_run body fuel fc fd evs : forall l v,
  wf l ->
  registered Connected fc l -> registered Disconnected fd l ->
  only_under Connected fc l -> only_under Disconnected fd l ->
  forall os l' t,
  run body fuel evs l = (os, l', t) ->
  Forall (fun o => o = Returned) os ->
  untouched fc t -> untouched fd t ->
  Indicator.isConnected
    (Header.mkInstance fc fd (mkUnlisten Connected fc)
       (mkUnlisten Disconnected fd)) v t =
  Indicator.last_status v evs.
Proof.
  induction evs as [|ev evs IH]; intros l v W Rc Rd Oc Od os l' t H AllR Uc Ud.
  - inversion H; subst. reflexivity.
  - run_step H D R.
    destruct o1; inversion H; subst; clear H;
      inversion AllR as [|? ? Ho AllR']; subst; try discriminate.
    apply untouched_app in Uc. destruct Uc as [Uc1 Uc2].
    apply untouched_app in Ud. destruct Ud as [Ud1 Ud2].
    destruct (@dispatch_untouched body fuel ev Connected fc l l1 t1
                W Rc Oc D Uc1) as (Cc & W1 & Rc1 & Oc1).
    destruct (@dispatch_untouched body fuel ev Disconnected fd l l1 t1
                W Rd Od D Ud1) as (Cd & _ & Rd1 & Od1).
    rewrite isConnected_app. simpl Indicator.last_status.
    rewrite <- (IH l1 _ W1 Rc1 Rd1 Oc1 Od1 _ _ _ R AllR' Uc2 Ud2).
    f_equal.
    destruct (ev_kind ev); simpl in Cc, Cd.
    + rewrite isConnected_set by exact Cd. simpl. rewrite Cc. reflexivity.
    + rewrite isConnected_reset by exact Cc. simpl. rewrite Cd. reflexivity.
    + rewrite isConnected_set by exact Cd. simpl. rewrite Cc. reflexivity.
    + rewrite isConnected_set by exact Cd. simpl. rewrite Cc. reflexivity.
Qed.

(** While a header is mounted, nobody else touches its two subscriptions,
    and every delivery returns, its [isConnected] follows the socket:
    after any events it is [true] exactly if the last of the [connected]
    and [disconnected] events among them was a [connected] one, and it is
    unchanged if there was none. *)
Theorem header_follows_the_socket body fuel fc fd m l evs v :
  let i := snd (Header.setup fc fd m) in
  wf l ->
  registered Connected fc l -> registered Disconnected fd l ->
  only_under Connected fc l -> only_under Disconnected fd l ->
  let '(os, _, t) := run body fuel evs l in
  Forall (fun o => o = Returned) os ->
  untouched fc t -> untouched fd t ->
  Indicator.isConnected i v t = Indicator.last_status v evs.
Proof.
  intros i W Rc Rd Oc Od. unfold i. rewrite setup_instance.
  destruct (run body fuel evs l) as [[os l'] t] eqn:R.
  intros AllR Uc Ud. eapply header_follows_run; eauto.
Qed.

(** For instance: the socket opens, delivers a message, closes and opens
    again. *)
Lemma header_follows_the_socket_witness :
  let i := snd (Header.setup 10 11 module0) in
  let l := listeners Cases.mounted in
  let evs := [Scenario.ev_open; Scenario.ev_msg1; Scenario.ev_close;
              mkEvent Connected 4] in
  let '(os, _, t) := run Scenario.observers 5 evs l in
  wf l /\ Forall (fun o => o = Returned) os /\
  Indicator.isConnected i Indicator.initial t = true /\
  Indicator.last_status Indicator.initial evs = true.
Proof.
  set (l := listeners Cases.mounted).
  assert (W : wf l).
  { unfold l, Cases.mounted. rewrite setup_listeners.
    apply (wf_subscribe Disconnected), (wf_subscribe Connected),
          (wf_subscribe Message), wf_listeners0. }
  assert (Oc : only_under Connected 10 l).
  { intros [] H; vm_compute in H; intuition discriminate. }
  assert (Od : only_under Disconnected 11 l).
  { intros [] H; vm_compute in H; intuition discriminate. }
  assert (Rc : registered Connected 10 l) by (vm_compute; auto).
  assert (Rd : registered Disconnected 11 l) by (vm_compute; auto).
  pose proof (@header_follows_the_socket Scenario.observers 5 10 11 module0 l
                [Scenario.ev_open; Scenario.ev_msg1; Scenario.ev_close;
                 mkEvent Connected 4] Indicator.initial W Rc Rd Oc Od) as T.
  cbv zeta. fold l.
  destruct (run Scenario.observers 5 _ l) as [[os l'] t] eqn:R.
  vm_compute in R. inversion R; subst os l' t; clear R.
  assert (A : Forall (fun o => o = Returned)
                [Returned; Returned; Returned; Returned])
    by (repeat constructor).
  split; [exact W|]. split; [exact A|]. split; [|reflexivity].
  rewrite T; [reflexivity|exact A| |];
    intros k; split; intros I; simpl in I; intuition discriminate.
Defined.

Lemma run_other_kinds body fuel k fn evs : forall l os l' t,
  run body fuel evs l = (os, l', t) ->
  only_under k fn l ->
  Forall (fun e => ev_kind e <> k) evs ->
  (forall k', k' <> k -> ~ In (CalledAdd k' fn) t) ->
  calls_any fn t = 0.
Proof.
  induction evs as [|ev evs IH]; intros l os l' t H O NK N.
  - inversion H; subst. reflexivity.
  - inversion NK as [|? ? Nk NK']; subst.
    run_step H D R. rewrite dispatch_forEach in D.
    assert (B : forall p, slot (ev_kind ev) p fn l -> p < 0).
    { intros p Sl. apply slot_registered, O in Sl. contradiction. }
    assert (C : (forall k', k' <> k -> ~ In (CalledAdd k' fn) (t1 ++ t2)) ->
                calls_any fn (t1 ++ t2) = 0).
    { intros N'.
      assert (N1 : forall k', k' <> k -> ~ In (CalledAdd k' fn) t1)
        by (intros k' ne I; apply (N' k' ne), in_or_app; auto).
      assert (N2 : forall k', k' <> k -> ~ In (CalledAdd k' fn) t2)
        by (intros k' ne I; apply (N' k' ne), in_or_app; auto).
      rewrite calls_any_app.
      rewrite (@forEach_behind body fuel (ev_kind ev) ev fn 0 l o1 l1 t1 D B
                 (N1 _ Nk)).
      eapply IH; [exact R| |exact NK'|exact N2].
      eapply only_under_forEach; [exact D|exact N1|exact O]. }
    destruct o1; inversion H; subst; clear H; auto.
    eapply forEach_behind; [exact D|exact B|exact (N _ Nk)].
Qed.

(** A header shows "disconnected" from the moment it is mounted until a
    [connected] event is delivered, whatever state the module and its
    socket are in when it is mounted: it starts from [false] and only
    events change it. *)
Theorem fresh_header_shows_disconnected body fuel fc fd m evs :
  fc <> fd ->
  (forall k, ~ registered k fc (listeners m)) ->
  (forall k, ~ registered k fd (listeners m)) ->
  let '(m1, i) := Header.setup fc fd m in
  let '(_, _, t) := run body fuel evs (listeners m1) in
  Forall (fun e => ev_kind e <> Connected) evs ->
  (forall k, k <> Connected -> ~ In (CalledAdd k fc) t) ->
  let shown := Indicator.isConnected i Indicator.initial t in
  Indicator.text shown = "disconnected"%string /\
  Indicator.dot_class shown = "bg-red-400"%string /\
  Indicator.text_class shown = "text-red-400"%string.
Proof.
  intros ne Uc Ud.
  destruct (setup_only_under m ne Uc Ud) as [Oc _].
  pose proof (setup_instance fc fd m) as Ei.
  destruct (Header.setup fc fd m) as [m1 i]. simpl in Ei, Oc. subst i.
  destruct (run body fuel evs (listeners m1)) as [[os l'] t] eqn:R.
  intros NK N.
  assert (Z : calls_any fc t = 0) by (eapply run_other_kinds; eauto).
  rewrite isConnected_reset by exact Z.
  unfold Indicator.initial. destruct (Nat.eqb _ 0); repeat split; reflexivity.
Qed.

(** For instance: a header mounted on a module whose socket was
    constructed before; a message arrives and the socket closes. *)
Lemma fresh_header_shows_disconnected_witness :
  let m := fst (useAppWebSocket module0) in
  let '(m1, i) := Header.setup 10 11 m in
  let t := snd (run Scenario.observers 5
                  [Scenario.ev_msg1; Scenario.ev_close] (listeners m1)) in
  socket m <> None /\
  Indicator.text (Indicator.isConnected i Indicator.initial t)
  = "disconnected"%string.
Proof.
  pose proof (@fresh_header_shows_disconnected Scenario.observers 5 10 11
                (fst (useAppWebSocket module0))
                [Scenario.ev_msg1; Scenario.ev_close]) as T.
  cbv zeta.
  destruct (Header.setup 10 11 (fst (useAppWebSocket module0))) as [m1 i] eqn:S.
  destruct (run Scenario.observers 5 [Scenario.ev_msg1; Scenario.ev_close]
              (listeners m1)) as [[os l'] t] eqn:R.
  split; [discriminate|]. simpl snd.
  apply T.
  - discriminate.
  - intros [] H; exact H.
  - intros [] H; exact H.
  - repeat constructor; discriminate.
  - vm_compute in S. inversion S; subst m1 i; clear S.
    vm_compute in R. inversion R; subst os l' t; clear R.
    intros k _ I. simpl in I. intuition discriminate.
Defined.

(** ** One-shot listeners *)

(** A function that is unsubscribed during a walk and not subscribed
    during it has no slot when the walk ends. *)
Lemma forEach_deleted_gone body fuel k0 ev k fn : forall index l o l' t,
  forEach body fuel k0 ev index l = (o, l', t) -> wf l ->
  In (CalledDelete k fn) t -> ~ In (CalledAdd k fn) t ->
  forall q, ~ slot k q fn l'.
Proof.
  induction fuel as [|fuel IH]; intros index l o l' t H W D N q.
  - inversion H; subst. destruct D.
  - walk_step H E R F.
    + destruct D as [D|D]; [discriminate|].
      eapply run_prog_deleted; [exact R|exact W|exact D|].
      apply no_add_no_readd. intros I. apply N. right. exact I.
    + assert (N1 : ~ In (CalledAdd k fn) t1).
      { intros I. apply N. right. apply in_or_app. auto. }
      assert (N2 : ~ In (CalledAdd k fn) t2).
      { intros I. apply N. right. apply in_or_app. auto. }
      assert (W1 : wf l1) by (eapply run_prog_wf; eauto).
      destruct D as [D|D]; [discriminate|].
      apply in_app_or in D. destruct D as [D|D].
      * intros Sl.
        destruct (@forEach_new body fuel k0 ev (S index) l1 o l' t2 k q fn F Sl)
          as [S1|I]; [|contradiction].
        revert S1. eapply run_prog_deleted; [exact R|exact W|exact D|].
        apply no_add_no_readd, N1.
      * eapply IH; [exact F|exact W1|exact D|exact N2].
    + eapply IH; eauto.
    + destruct D.
Qed.

(** A handler whose first action, on the event that is delivered, is to
    unsubscribe itself has done so whenever it has been called. *)
Lemma forEach_called_body body fuel k0 ev k fn : forall index l o l' t,
  (exists rest, body fn ev = Unsubscribe k fn rest) ->
  forEach body fuel k0 ev index l = (o, l', t) ->
  calls_any fn t <> 0 -> In (CalledDelete k fn) t.
Proof.
  induction fuel as [|fuel IH]; intros index l o l' t B H C.
  - inversion H; subst. contradiction.
  - assert (Hb : forall l0 threw l1 t1,
              run_prog (body fn ev) l0 = (threw, l1, t1) ->
              In (CalledDelete k fn) t1).
    { intros l0 threw l1 t1 R. destruct B as [rest Er]. rewrite Er in R.
      prog_step R R'. left. reflexivity. }
    walk_step H E R F.
    + simpl in C. rewrite (run_prog_calls _ _ fn R) in C.
      destruct (Nat.eqb_spec g fn) as [->|ne]; [|simpl in C; lia].
      right. eapply Hb, R.
    + simpl in C. rewrite calls_any_app, (run_prog_calls _ _ fn R) in C.
      destruct (Nat.eqb_spec g fn) as [->|ne].
      * right. apply in_or_app. left. eapply Hb, R.
      * right. apply in_or_app. right. eapply IH; [exact B|exact F|].
        simpl in C. lia.
    + eapply IH; eauto.
    + simpl in C. contradiction.
Qed.

Lemma calls_of_kind_app k fn t1 t2 :
  calls_of_kind k fn (t1 ++ t2) = calls_of_kind k fn t1 + calls_of_kind k fn t2.
Proof.
  induction t1 as [|[g e|k' g|k' g] t1 IH]; simpl; auto. rewrite IH. lia.
Qed.

Lemma calls_of_kind_le k fn t : calls_of_kind k fn t <= calls_any fn t.
Proof.
  induction t as [|[g e|k' g|k' g] t IH]; simpl; auto.
  destruct (Nat.eqb g fn); simpl; [|exact IH].
  destruct (WSKind_eqb (ev_kind e) k); lia.
Qed.

(** Calls made with an event of another kind do not count. *)
Lemma calls_of_kind_other k fn ev t :
  (forall g e, In (g, e) (invoked t) -> e = ev) -> ev_kind ev <> k ->
  calls_of_kind k fn t = 0.
Proof.
  intros H ne. induction t as [|[g e|k' g|k' g] t IH]; simpl; auto.
  - assert (e = ev) as -> by (apply (H g); simpl; auto).
    destruct (WSKind_eqb_spec (ev_kind ev) k) as [Ek|_]; [contradiction|].
    rewrite andb_false_r. simpl. apply IH.
    intros g' e' I. apply (H g'). simpl. auto.
Qed.

(** What one delivery does for a function and a kind [k]: without a
    subscription of [fn] under [k] during it, a function that is not
    registered under [k] stays so and gets no call with an event of
    kind [k]. *)
Lemma forEach_not_under body fuel k fn ev l o l1 t1 :
  forEach body fuel (ev_kind ev) ev 0 l = (o, l1, t1) ->
  ~ registered k fn l -> ~ In (CalledAdd k fn) t1 ->
  calls_of_kind k fn t1 = 0 /\ ~ registered k fn l1.
Proof.
  intros D U N. split.
  - destruct (WSKind_eqb_spec (ev_kind ev) k) as [Ek|ne].
    + subst k.
      assert (Z : calls_any fn t1 = 0).
      { eapply forEach_behind; [exact D| |exact N].
        intros p Sl. exfalso. eapply U, slot_registered, Sl. }
      pose proof (calls_of_kind_le (ev_kind ev) fn t1). lia.
    + eapply calls_of_kind_other; [|exact ne].
      intros g e I.
      exact (@forEach_event body fuel (ev_kind ev) ev 0 l o l1 t1 g e D I).
  - intros Rg. apply registered_slot in Rg. destruct Rg as [p Sl].
    destruct (@forEach_new body fuel (ev_kind ev) ev 0 l o l1 t1 k p fn D Sl)
      as [S0|I]; [|contradiction].
    eapply U, slot_registered, S0.
Qed.

Lemma run_not_under body fuel k fn evs : forall l os l' t,
  run body fuel evs l = (os, l', t) ->
  ~ registered k fn l -> ~ In (CalledAdd k fn) t ->
  calls_of_kind k fn t = 0.
Proof.
  induction evs as [|ev evs IH]; intros l os l' t H U N.
  - inversion H; subst. reflexivity.
  - run_step H D R. rewrite dispatch_forEach in D.
    assert (C : ~ In (CalledAdd k fn) (t1 ++ t2) ->
                calls_of_kind k fn (t1 ++ t2) = 0).
    { intros N'.
      assert (N1 : ~ In (CalledAdd k fn) t1)
        by (intros I; apply N', in_or_app; auto).
      assert (N2 : ~ In (CalledAdd k fn) t2)
        by (intros I; apply N', in_or_app; auto).
      destruct (@forEach_not_under body fuel k fn ev l o1 l1 t1 D U N1) as [Z U1].
      rewrite calls_of_kind_app, Z.
      eapply IH; [exact R|exact U1|exact N2]. }
    destruct o1; inversion H; subst; clear H; auto.
    eapply forEach_not_under; [exact D|exact U|exact N].
Qed.

(** One delivery to a one-shot listener: at most one call with an event
    of kind [k], and after such a call the function is no longer
    registered under [k]. *)
Lemma one_shot_delivery body fuel k fn ev l o l1 t1 :
  (forall e, ev_kind e = k -> exists rest, body fn e = Unsubscribe k fn rest) ->
  forEach body fuel (ev_kind ev) ev 0 l = (o, l1, t1) -> wf l ->
  ~ In (CalledAdd k fn) t1 ->
  calls_of_kind k fn t1 <= 1 /\
  (calls_of_kind k fn t1 <> 0 -> ~ registered k fn l1).
Proof.
  intros B D W N.
  destruct (WSKind_eqb_spec (ev_kind ev) k) as [Ek|ne].
  - subst k. pose proof (calls_of_kind_le (ev_kind ev) fn t1) as Le. split.
    + destruct (@forEach_no_readd body fuel (ev_kind ev) ev fn 0 l o l1 t1 D W
                  (@no_add_no_readd (ev_kind ev) fn t1 N)) as [A _].
      lia.
    + intros NZ Rg.
      assert (NZ' : calls_any fn t1 <> 0) by lia.
      pose proof (@forEach_called_body body fuel (ev_kind ev) ev (ev_kind ev)
                    fn 0 l o l1 t1 (B ev eq_refl) D NZ') as Dl.
      apply registered_slot in Rg. destruct Rg as [q Sl]. revert Sl.
      eapply forEach_deleted_gone; [exact D|exact W|exact Dl|exact N].
  - assert (Z : calls_of_kind k fn t1 = 0).
    { eapply calls_of_kind_other; [|exact ne].
      intros g e I.
      exact (@forEach_event body fuel (ev_kind ev) ev 0 l o l1 t1 g e D I). }
    split; [lia|]. intros NZ. contradiction.
Qed.

Lemma one_shot_run body fuel k fn evs : forall l os l' t,
  (forall e, ev_kind e = k -> exists rest, body fn e = Unsubscribe k fn rest) ->
  run body fuel evs l = (os, l', t) ->
  wf l ->
  ~ In (CalledAdd k fn) t ->
  calls_of_kind k fn t <= 1.
Proof.
  induction evs as [|ev evs IH]; intros l os l' t B H W N.
  - inversion H; subst. simpl. lia.
  - run_step H D R. pose proof (dispatch_wf _ _ _ D W) as W1.
    rewrite dispatch_forEach in D.
    assert (C : ~ In (CalledAdd k fn) (t1 ++ t2) ->
                calls_of_kind k fn (t1 ++ t2) <= 1).
    { intros N'.
      assert (N1 : ~ In (CalledAdd k fn) t1)
        by (intros I; apply N', in_or_app; auto).
      assert (N2 : ~ In (CalledAdd k fn) t2)
        by (intros I; apply N', in_or_app; auto).
      destruct (@one_shot_delivery body fuel k fn ev l o1 l1 t1 B D W N1)
        as [Le Gone].
      rewrite calls_of_kind_app.
      destruct (Nat.eq_dec (calls_of_kind k fn t1) 0) as [Z|NZ].
      - rewrite Z. simpl. eapply IH; [exact B|exact R|exact W1|exact N2].
      - rewrite (@run_not_under body fuel k fn evs l1 os0 l2 t2 R (Gone NZ) N2).
        lia. }
    destruct o1; inversion H; subst; clear H; auto.
    eapply one_shot_delivery; [exact B|exact D|exact W|exact N].
Qed.

(** A one-shot listener for the events of kind [k], one whose first
    action when called with such an event is to unsubscribe itself from
    [k], is called at most once with an event of kind [k], however many
    events are delivered, unless somebody subscribes it again under [k].
    It may be registered under other kinds as well, and is then called
    for their events as usual. *)
Theorem one_shot_listener_called_at_most_once body fuel k fn l evs :
  (forall e, ev_kind e = k -> exists rest, body fn e = Unsubscribe k fn rest) ->
  wf l ->
  let '(_, _, t) := run body fuel evs l in
  ~ In (CalledAdd k fn) t ->
  calls_of_kind k fn t <= 1.
Proof.
  intros B W. destruct (run body fuel evs l) as [[os l'] t] eqn:R.
  intros N. eapply one_shot_run; eauto.
Qed.

(** For instance: [f1] listens under [connected] and [message], and is a
    one-shot listener for messages.  Of two messages it gets the first
    only, while it is called each time the socket opens. *)
Lemma one_shot_listener_called_at_most_once_witness :
  let l := Cases.both_kinds in
  let t := snd (run Scenario.one_shot 5
                  [Scenario.ev_msg1; Scenario.ev_open; Scenario.ev_msg2;
                   Scenario.ev_open] l) in
  wf l /\ registered Connected Scenario.f1 l /\
  registered Message Scenario.f1 l /\
  calls_any Scenario.f1 t = 3 /\ calls_of_kind Message Scenario.f1 t <= 1.
Proof.
  assert (W : wf Cases.both_kinds).
  { change (wf (fst (subscribe Message Scenario.f1
                       (fst (subscribe Connected Scenario.f1 listeners0))))).
    apply wf_subscribe, wf_subscribe, wf_listeners0. }
  split; [exact W|]. split; [vm_compute; auto|]. split; [vm_compute; auto|].
  split; [reflexivity|].
  assert (B : forall e, ev_kind e = Message -> exists rest,
            Scenario.one_shot Scenario.f1 e = Unsubscribe Message Scenario.f1 rest).
  { intros e _. eexists. reflexivity. }
  pose proof (@one_shot_listener_called_at_most_once Scenario.one_shot 5 Message
                Scenario.f1 Cases.both_kinds
                [Scenario.ev_msg1; Scenario.ev_open; Scenario.ev_msg2;
                 Scenario.ev_open] B W) as T.
  cbv zeta.
  destruct (run Scenario.one_shot 5 _ Cases.both_kinds) as [[os l'] t] eqn:R.
  simpl snd. apply T.
  vm_compute in R. inversion R; subst os l' t; clear R.
  intros I. simpl in I. intuition discriminate.
Defined.

(** ** Deliveries and the history of the registry *)

(** What is delivered, and to whom, depends on which functions are
    registered and in which order, not on the subscriptions and
    unsubscriptions that led there: two registries whose sets have the
    same elements in the same order see the same calls and the same
    outcomes, and have the same elements afterwards. *)
Theorem deliveries_depend_on_elements_only body fuel evs l l' :
  wf l -> wf l' -> same_elements l l' ->
  let '(os, l1, t) := run body fuel evs l in
  ~ In Diverged os ->
  exists fuel' l1',
    run body fuel' evs l' = (os, l1', t) /\ same_elements l1 l1'.
Proof.
  intros W W' E. destruct (run body fuel evs l) as [[os l1] t] eqn:R.
  intros ND.
  exact (@same_elements_same_deliveries body evs fuel l l' os l1 t W W' E R ND).
Qed.

(** For instance: two message listeners, once with a third one that was
    subscribed and unsubscribed again, once without. *)
Lemma deliveries_depend_on_elements_only_witness :
  let l := fst (call_unlisten (mkUnlisten Message Scenario.f3)
                  (Scenario.three Message)) in
  let l' := Scenario.two Message in
  wf l /\ wf l' /\ same_elements l l' /\ l <> l' /\
  exists fuel' l1',
    run Cases.subscribes_late fuel' [Scenario.ev_msg1; Scenario.ev_msg2] l' =
    (fst (fst (run Cases.subscribes_late 6
                 [Scenario.ev_msg1; Scenario.ev_msg2] l)), l1',
     snd (run Cases.subscribes_late 6 [Scenario.ev_msg1; Scenario.ev_msg2] l)).
Proof.
  set (l := fst (call_unlisten (mkUnlisten Message Scenario.f3)
                   (Scenario.three Message))).
  assert (W' : wf (Scenario.two Message)).
  { apply wf_subscribe, wf_subscribe, wf_listeners0. }
  assert (W : wf l).
  { apply wf_call_unlisten, wf_subscribe, W'. }
  assert (E : same_elements l (Scenario.two Message)).
  { intros []; reflexivity. }
  pose proof (@deliveries_depend_on_elements_only Cases.subscribes_late 6
                [Scenario.ev_msg1; Scenario.ev_msg2] l (Scenario.two Message)
                W W' E) as T.
  cbv zeta. split; [exact W|]. split; [exact W'|]. split; [exact E|].
  split; [discriminate|].
  destruct (run Cases.subscribes_late 6 [Scenario.ev_msg1; Scenario.ev_msg2] l)
    as [[os l1] t] eqn:R.
  destruct T as (fuel' & l1' & R' & _).
  - vm_compute in R. inversion R; subst os l1 t; clear R.
    simpl. intuition discriminate.
  - exists fuel', l1'. exact R'.
Defined.
